(** * hamtube: the karaoke room state machine and the signalling relay

    A shallow embedding of [server/lib/KaraokeRoom.js] and
    [src/server/util/socket.js].  Every method of the [KaraokeRoom] class is
    a computation in a small state-and-exception monad: the state is the room
    object together with the [io] handle it shares with the relay, and the
    only observable effect besides mutation is the list of frames handed to
    the transport ([emit]).  What a client sends is taken as it comes: a
    room id, a video description or a signal payload may be missing, and
    the dictionaries that are plain objects are read as JavaScript reads
    them, inherited properties included. *)

From Stdlib Require Import DecimalString.
From stdpp Require Import base option list strings gmap.

(** ** Values shared by both files *)

Definition SessionId := string.
Definition RoomId := string.

(** A connected socket.  The server code only ever reads [socket.id] and
    [socket.handshake.query.room] from it and calls [emit]/[join] on it.
    The room is what the client put in the query string: it is [None] when
    the query has no [room] at all ([undefined]) and may be empty. *)
Record Socket := mkSocket {
  socket_id : SessionId;
  handshake_query_room : option RoomId
}.

(** A room id used as a property key or a room name:
    [undefined] becomes the string "undefined". *)
Definition room_key (roomId : option RoomId) : RoomId := default "undefined" roomId.

(** A description of a video; the room reads [title], and only inside a
    template literal: [title] is the text printed there, which is
    "undefined" for a payload that has no such property. *)
Record VideoData := mkVideoData {
  title : string;
  url : string
}.

(** One entry of [songQueue]: [{ singerId: userId, videoData }].  The video
    data is whatever the client sent and is not looked at when the song is
    queued: [None] stands for [null] or [undefined]. *)
Record Song := mkSong {
  singerId : SessionId;
  videoData : option VideoData
}.

(** Modelled from the spec: [lib/playerStates] is not part of the sources
    at hand.  The room uses three of its constants, [UNSTARTED], [PLAYING]
    and [ENDED]; the stored status is one of them or [null] (the spec's
    NONE), which is [None] below. *)
Inductive PlayerState := UNSTARTED | ENDED | PLAYING.

(** The object built by [roomData()]. *)
Record RoomData := mkRoomData {
  currentSong : option Song;
  currentSinger : option SessionId;
  upNext : option Song;
  position : Z
}.

(** What is handed to the transport: an event name with its payload ... *)
Inductive Event :=
| notification (message : string)
| room_data (data : RoomData)
| video_control (code : PlayerState)
| song_added_success (message : string)
| peer (peerId : SessionId) (initiator : bool)
| signal (payload : string) (peerId : SessionId)
| destroy (peerId : SessionId)
| disconnect_video (peerId : SessionId).

(** ... and the emitter it was called on: [socket.emit], [io.to(room).emit]
    or [socket.to(room).emit]. *)
Inductive Target :=
| to_socket (s : Socket)
| to_room (r : RoomId)
| from_socket_to_room (s : Socket) (r : RoomId).

Definition Emit : Type := Target * Event.

#[global] Instance Socket_eq_dec : EqDecision Socket.
Proof. solve_decision. Defined.
#[global] Instance VideoData_eq_dec : EqDecision VideoData.
Proof. solve_decision. Defined.
#[global] Instance Song_eq_dec : EqDecision Song.
Proof. solve_decision. Defined.
#[global] Instance PlayerState_eq_dec : EqDecision PlayerState.
Proof. solve_decision. Defined.
#[global] Instance RoomData_eq_dec : EqDecision RoomData.
Proof. solve_decision. Defined.
#[global] Instance Event_eq_dec : EqDecision Event.
Proof. solve_decision. Defined.
#[global] Instance Target_eq_dec : EqDecision Target.
Proof. solve_decision. Defined.

(** ** Reading a property of a plain object

    The dictionaries of the server are plain objects, [{}], and are read
    with [object[key]]: a key the object does not own is looked up on
    [Object.prototype], so reading "constructor" or "toString" gives a
    built-in, which is truthy, where reading another unknown key gives
    [undefined]. *)
Definition Object_prototype_names : list string :=
  ["constructor"; "__proto__"; "hasOwnProperty"; "isPrototypeOf";
   "propertyIsEnumerable"; "toLocaleString"; "toString"; "valueOf";
   "__defineGetter__"; "__defineSetter__"; "__lookupGetter__"; "__lookupSetter__"].

Inductive Property (A : Type) :=
| own (value : A)
| inherited (name : string)
| no_property.
Arguments own {A} value.
Arguments inherited {A} name.
Arguments no_property {A}.

Definition read_property {A} (owned : option A) (key : string) : Property A :=
  match owned with
  | Some value => own value
  | None => if decide (key ∈ Object_prototype_names) then inherited key else no_property
  end.

(** ** Plain JavaScript objects used as dictionaries

    [this.users] is an object keyed by socket id.  [Object.keys] lists string
    keys in insertion order, assigning to an existing key keeps its place and
    [delete] of a missing key does nothing, so the object is an association
    list without repeated keys.  (Keys that spell an array index would be
    listed first by the engine, and assigning to "__proto__" would not make
    a key; the keys assigned are socket ids, which the server generates and
    which are not of these forms.) *)
Module JsObject.
Definition t (A : Type) : Type := list (string * A).

Fixpoint get {A} (k : string) (o : t A) : option A :=
  match o with
  | [] => None
  | (k', v) :: o' => if decide (k' = k) then Some v else get k o'
  end.

Fixpoint set {A} (k : string) (v : A) (o : t A) : t A :=
  match o with
  | [] => [(k, v)]
  | (k', v') :: o' =>
      if decide (k' = k) then (k, v) :: o' else (k', v') :: set k v o'
  end.

Definition delete {A} (k : string) (o : t A) : t A :=
  filter (λ kv, fst kv ≠ k) o.

Definition keys {A} (o : t A) : list string := fst <$> o.

Definition read {A} (k : string) (o : t A) : Property A :=
  read_property (get k o) k.
End JsObject.

(** Template literals print a number in decimal. *)
Definition decimal (n : nat) : string :=
  NilZero.string_of_uint (Nat.to_uint n).

(** ** The room object and the transport handle *)

(** The fields assigned by the constructor of [KaraokeRoom], except [io],
    which is shared with the relay and lives next to the room in [Heap]. *)
Record KaraokeRoom := mkKaraokeRoom {
  room_id : RoomId;
  songQueue : list Song;
  nowPlaying : option Song;
  videoPosition : Z;
  users : JsObject.t Socket;
  awaitingClients : list SessionId;
  playerStatus : option PlayerState
}.

(** The socket.io server as far as the code reads it: [io.sockets.connected],
    the members of each room of the adapter in [Object.keys] order, and the
    frames emitted so far, oldest first. *)
Record Io := mkIo {
  connected : gmap SessionId Socket;
  adapter_rooms : gmap RoomId (list SessionId);
  wire : list Emit
}.

Record Heap := mkHeap {
  this : KaraokeRoom;
  io : Io
}.

Inductive JsError :=
| Error (message : string)
| TypeError (message : string).

Inductive Completion (A : Type) :=
| Normal (a : A)
| Throw (e : JsError).
Arguments Normal {A} a.
Arguments Throw {A} e.

(** A method body: it runs on the heap, mutates it, and either returns or
    throws; what it mutated before throwing stays mutated. *)
Definition M (A : Type) : Type := Heap → Completion A * Heap.

#[global] Instance M_ret : MRet M := λ A a h, (Normal a, h).
#[global] Instance M_bind : MBind M := λ A B f m h,
  match m h with
  | (Normal a, h') => f a h'
  | (Throw e, h') => (Throw e, h')
  end.

Definition gets {A} (f : KaraokeRoom → A) : M A := λ h, (Normal (f (this h)), h).
Definition modify (f : KaraokeRoom → KaraokeRoom) : M unit :=
  λ h, (Normal tt, mkHeap (f (this h)) (io h)).
Definition throw {A} (e : JsError) : M A := λ h, (Throw e, h).
Definition io_emit (t : Target) (e : Event) (s : Io) : Io :=
  mkIo (connected s) (adapter_rooms s) (wire s ++ [(t, e)]).
Definition emit (t : Target) (e : Event) : M unit :=
  λ h, (Normal tt, mkHeap (this h) (io_emit t e (io h))).

Definition is_thrown {A} (c : Completion A) : bool :=
  match c with Throw _ => true | Normal _ => false end.

(** Field assignments, [this.f = v]. *)
Definition set_songQueue (v : list Song) (r : KaraokeRoom) : KaraokeRoom :=
  mkKaraokeRoom (room_id r) v (nowPlaying r) (videoPosition r) (users r)
                (awaitingClients r) (playerStatus r).
Definition set_nowPlaying (v : option Song) (r : KaraokeRoom) : KaraokeRoom :=
  mkKaraokeRoom (room_id r) (songQueue r) v (videoPosition r) (users r)
                (awaitingClients r) (playerStatus r).
Definition set_videoPosition (v : Z) (r : KaraokeRoom) : KaraokeRoom :=
  mkKaraokeRoom (room_id r) (songQueue r) (nowPlaying r) v (users r)
                (awaitingClients r) (playerStatus r).
Definition set_users (v : JsObject.t Socket) (r : KaraokeRoom) : KaraokeRoom :=
  mkKaraokeRoom (room_id r) (songQueue r) (nowPlaying r) (videoPosition r) v
                (awaitingClients r) (playerStatus r).
Definition set_awaitingClients (v : list SessionId) (r : KaraokeRoom) : KaraokeRoom :=
  mkKaraokeRoom (room_id r) (songQueue r) (nowPlaying r) (videoPosition r) (users r)
                v (playerStatus r).
Definition set_playerStatus (v : option PlayerState) (r : KaraokeRoom) : KaraokeRoom :=
  mkKaraokeRoom (room_id r) (songQueue r) (nowPlaying r) (videoPosition r) (users r)
                (awaitingClients r) v.

(** [socket.join(room)]: the in-memory adapter adds the id to the room's
    [sockets] object at once, creating the room when it is the first. *)
Definition adapter_add (sid : SessionId) (r : RoomId)
    (rooms : gmap RoomId (list SessionId)) : gmap RoomId (list SessionId) :=
  let members := default [] (rooms !! r) in
  <[r := if decide (sid ∈ members) then members else members ++ [sid]]> rooms.

Definition socket_join (socket : Socket) (r : RoomId) : M unit :=
  λ h, (Normal tt,
        mkHeap (this h)
               (mkIo (connected (io h))
                     (adapter_add (socket_id socket) r (adapter_rooms (io h)))
                     (wire (io h)))).

(** Modelled from the spec: [karaoke-user-socket] is not part of the
    sources at hand.  A session attaches to and detaches from its room; the
    two entry points register and drop the session's listeners and do not
    touch the fields of the room. *)
Definition initKaraokeUserSocket (socket : Socket) : M unit := mret tt.
Definition teardownKaraokeUserSocket (socket : Socket) : M unit := mret tt.

(** Modelled from the spec: [util/numberHelper] is not part of the sources
    at hand.  The suffix is "st", "nd", "rd" for 1, 2, 3, "th" for every
    other number up to 20 (so also for 11, 12 and 13), and from 21 on it is
    chosen by the last digit. *)
Definition ordinalSuffix (n : nat) : string :=
  if decide (n ≤ 20) then
    match n with 1 => "st" | 2 => "nd" | 3 => "rd" | _ => "th" end
  else
    match n mod 10 with 1 => "st" | 2 => "nd" | 3 => "rd" | _ => "th" end.

Definition getNumberWithOrdinal (n : nat) : string :=
  decimal n +:+ ordinalSuffix n.

(** ** [KaraokeRoom]: constructor and methods *)

(** [new KaraokeRoom({ id, io })]: both properties must be truthy; [io] is
    the server handle and always is, a missing or empty id is not. *)
Definition KaraokeRoom_new (id : option RoomId) : Completion KaraokeRoom :=
  match id with
  | None => Throw (Error "KaraokeRoom requires id")
  | Some id =>
      if decide (id = "") then Throw (Error "KaraokeRoom requires id")
      else Normal (mkKaraokeRoom id [] None 0 [] [] None)
  end.

(** [song.videoData.title] inside a template literal: reading [title] of
    [null] or [undefined] throws. *)
Definition videoData_title (song : Song) : M string :=
  match videoData song with
  | Some v => mret (title v)
  | None => throw (TypeError "Cannot read property 'title' of undefined")
  end.

Definition notifyRoom (message : string) : M unit :=
  id ← gets room_id;
  emit (to_room id) (notification message).

Definition sendRoomData (data : RoomData) (socket : option Socket) : M unit :=
  id ← gets room_id;
  emit (from_option to_socket (to_room id) socket) (room_data data).

Definition roomData : M RoomData :=
  gets (λ r, mkRoomData (nowPlaying r) (singerId <$> nowPlaying r)
                        (head (songQueue r)) (videoPosition r)).

(** The private [#videoControl]. *)
Definition videoControl (code : PlayerState) (socket : option Socket) : M unit :=
  id ← gets room_id;
  emit (from_option to_socket (to_room id) socket) (video_control code).

Definition playVideo (socket : option Socket) : M unit :=
  modify (set_playerStatus (Some PLAYING));;
  videoControl PLAYING socket.

Definition stopVideo (socket : option Socket) : M unit :=
  videoControl ENDED socket.

Definition songIsPlaying : M bool :=
  gets (λ r, bool_decide (playerStatus r = Some PLAYING)).

Definition refreshAwaitingClients : M unit :=
  us ← gets users;
  modify (set_awaitingClients (JsObject.keys us)).

Definition removeUserFromAwaiting (socket : Socket) : M unit :=
  a ← gets awaitingClients;
  modify (set_awaitingClients (filter (λ id, id ≠ socket_id socket) a)).

Definition updateAwaitingClients (socket : Socket) : M unit :=
  removeUserFromAwaiting socket;;
  a ← gets awaitingClients;
  np ← gets nowPlaying;
  match np with
  | Some song =>
      if length a =? 0 then
        t ← videoData_title song;
        notifyRoom ("Now playing: " +:+ t);;
        playVideo None
      else mret tt
  | None => mret tt
  end.

(** [this.songQueue.shift() || null]: a queued song is an object, hence
    truthy, so [null] is stored exactly when the queue was empty. *)
Definition cycleSongs : M unit :=
  q ← gets songQueue;
  let currentSong := head q in
  modify (set_songQueue (tail q));;
  modify (set_nowPlaying currentSong);;
  modify (set_videoPosition 0);;
  match currentSong with
  | Some song =>
      modify (set_playerStatus (Some UNSTARTED));;
      refreshAwaitingClients;;
      t ← videoData_title song;
      notifyRoom ("Queueing up " +:+ t)
  | None =>
      modify (set_playerStatus None);;
      modify (set_awaitingClients []);;
      notifyRoom "Song Queue is empty. Add more!"
  end.

Definition queueGrowthMessage (n : nat) : string :=
  "A new song was just added to the queue 👻 (" +:+ decimal n +:+ " total)".

Definition songQueueUpdated : M unit :=
  q ← gets songQueue;
  notifyRoom (queueGrowthMessage (length q));;
  np ← gets nowPlaying;
  match np with
  | Some _ => d ← roomData; sendRoomData d None
  | None => cycleSongs
  end.

Definition placeInLineMessage (n : nat) : string :=
  "Song added. It's " +:+ getNumberWithOrdinal n +:+ " in line. 🔥".

Definition addToSongQueue (videoData : option VideoData) (userId : SessionId) : M unit :=
  q ← gets songQueue;
  modify (set_songQueue (q ++ [mkSong userId videoData]));;
  songQueueUpdated;;
  q' ← gets songQueue;
  let message :=
    if length q' =? 0 then "Song added. Get ready to sing!"
    else placeInLineMessage (length q') in
  us ← gets users;
  match JsObject.read userId us with
  | own socket => emit (to_socket socket) (song_added_success message)
  | inherited _ => throw (TypeError "this.users[userId].emit is not a function")
  | no_property => throw (TypeError "Cannot read property 'emit' of undefined")
  end.

Definition addUser (socket : Socket) : M unit :=
  id ← gets room_id;
  socket_join socket id;;
  initKaraokeUserSocket socket;;
  us ← gets users;
  modify (set_users (JsObject.set (socket_id socket) socket us));;
  d ← roomData;
  sendRoomData d (Some socket);;
  a ← gets awaitingClients;
  if 0 <? length a then modify (set_awaitingClients (a ++ [socket_id socket]))
  else mret tt.

Definition removeUser (socket : Socket) : M unit :=
  teardownKaraokeUserSocket socket;;
  updateAwaitingClients socket;;
  np ← gets nowPlaying;
  match np with
  | Some song =>
      if decide (singerId song = socket_id socket) then stopVideo None;; cycleSongs
      else mret tt
  | None => mret tt
  end;;
  us ← gets users;
  modify (set_users (JsObject.delete (socket_id socket) us)).

(** ** The events a room receives *)

(** Modelled from the spec: the listener for a client's readiness report
    is registered by [karaoke-user-socket], which is not part of the sources
    at hand.  It decrements the barrier on the path [removeUser] uses, that
    is, it calls [updateAwaitingClients] for the reporting socket. *)
Definition clientReady (socket : Socket) : M unit :=
  updateAwaitingClients socket.

Inductive Op :=
| AddUser (socket : Socket)
| RemoveUser (socket : Socket)
| EnqueueSong (videoData : option VideoData) (userId : SessionId)
| CycleSongs
| ClientReady (socket : Socket).

Definition exec (o : Op) : M unit :=
  match o with
  | AddUser socket => addUser socket
  | RemoveUser socket => removeUser socket
  | EnqueueSong v u => addToSongQueue v u
  | CycleSongs => cycleSongs
  | ClientReady socket => clientReady socket
  end.

(** One event handled to completion; a handler that throws leaves the heap
    as it was at the throw. *)
Definition step (o : Op) (h : Heap) : Heap := (exec o h).2.

Definition run (ops : list Op) (h : Heap) : Heap :=
  foldl (λ h o, step o h) h ops.

Inductive reachable : Heap → Prop :=
| reachable_new id r s :
    KaraokeRoom_new id = Normal r → reachable (mkHeap r s)
| reachable_step o h :
    reachable h → reachable (step o h).


(** The frames a handler added to the wire. *)
Definition emitted (h h' : Heap) : list Emit :=
  drop (length (wire (io h))) (wire (io h')).

Definition user_ids (r : KaraokeRoom) : list SessionId := JsObject.keys (users r).

(** Invariant 2 of the data model. *)
Definition awaiting_within_users (r : KaraokeRoom) : Prop :=
  awaitingClients r ⊆ user_ids r.



(** A room with nothing loaded has nothing queued. *)
Definition idle_queue_empty (r : KaraokeRoom) : Prop :=
  nowPlaying r = None → songQueue r = [].


Definition is_peer (e : Emit) : bool :=
  match e with
  | (_, peer _ _) => true
  | _ => false
  end.

Definition count_frames (p : Emit → bool) (l : list Emit) : nat :=
  length (filter (λ e, p e = true) l).

(** ** [socket.js]: the room registry and the relay *)

(** What [karaokeRooms[roomId]] can hold: a room, or, once a room id naming
    a property of [Object.prototype] has been looked up, the built-in value
    found under that name. *)
Inductive RegistryEntry :=
| a_room (room : KaraokeRoom)
| a_builtin (name : string).

Record World := mkWorld {
  karaokeRooms : gmap RoomId RegistryEntry;
  server : Io
}.

(** [karaokeRooms[roomId] = karaokeRooms[roomId] || new KaraokeRoom(...)]:
    every entry and every inherited value is truthy, so the constructor runs
    only for a key that reads as [undefined]; the value read is assigned
    back, which makes an inherited one an own entry (assigning to
    "__proto__" sets the prototype to what it already is and adds no
    entry). *)
Definition initializeRoom (roomId : option RoomId) (w : World)
    : Completion RegistryEntry * World :=
  let key := room_key roomId in
  match read_property (karaokeRooms w !! key) key with
  | own entry => (Normal entry, w)
  | inherited name =>
      (Normal (a_builtin name),
       if decide (name = "__proto__") then w
       else mkWorld (<[key := a_builtin name]> (karaokeRooms w)) (server w))
  | no_property =>
      match KaraokeRoom_new roomId with
      | Normal room =>
          (Normal (a_room room),
           mkWorld (<[key := a_room room]> (karaokeRooms w)) (server w))
      | Throw e => (Throw e, w)
      end
  end.

(** The payload of a client's "signal" event, [{ signal, peerId }];
    [data_peerId] is the property key [data.peerId] is used as. *)
Record SignalData := mkSignalData {
  data_signal : string;
  data_peerId : SessionId
}.

Definition on_disconnect (socket : Socket) (s : Io) : Completion unit * Io :=
  (Normal tt,
   io_emit (to_room (room_key (handshake_query_room socket)))
           (destroy (socket_id socket)) s).

Definition on_disconnect_video (socket : Socket) (s : Io) : Completion unit * Io :=
  (Normal tt,
   io_emit (from_socket_to_room socket (room_key (handshake_query_room socket)))
           (disconnect_video (socket_id socket)) s).

(** The "signal" listener.  The client may send the event with no payload
    ([None]); [io.sockets.connected] is a plain object and the guard tests
    the value read for truthiness. *)
Definition on_signal (socket : Socket) (data : option SignalData) (s : Io)
    : Completion unit * Io :=
  match data with
  | None => (Throw (TypeError "Cannot read property 'peerId' of undefined"), s)
  | Some data =>
      match read_property (connected s !! data_peerId data) (data_peerId data) with
      | no_property => (Normal tt, s)
      | own socket2 =>
          (Normal tt,
           io_emit (to_socket socket2) (signal (data_signal data) (socket_id socket)) s)
      | inherited _ => (Throw (TypeError "socket2.emit is not a function"), s)
      end
  end.

(** [_.pick(object, ids)]: the entries of [object] under the listed keys,
    in the order of the list.  The keys listed are the members of an
    adapter room, that is, socket ids, which the server generates. *)
Definition pick (object : gmap SessionId Socket) (ids : list SessionId) : list Socket :=
  omap (λ id, object !! id) ids.

(** The body of the [_.forEach] over the sockets already in the room. *)
Definition advertise (socket : Socket) (s : Io) (socket2 : Socket) : Io :=
  io_emit (to_socket socket) (peer (socket_id socket2) false)
    (io_emit (to_socket socket2) (peer (socket_id socket) true) s).

Definition introductions (socket : Socket) (sockets : list Socket) : list Emit :=
  flat_map (λ socket2, [(to_socket socket2, peer (socket_id socket) true);
                        (to_socket socket, peer (socket_id socket2) false)]) sockets.

(** The room object is shared between the registry and the handler, so what
    [addUser] does to it shows under its key.  [io.sockets.adapter.rooms] is
    a plain object as well. *)
Definition onConnection (socket : Socket) (w : World) : Completion unit * World :=
  let roomId := handshake_query_room socket in
  match initializeRoom roomId w with
  | (Throw e, w1) => (Throw e, w1)
  | (Normal (a_builtin _), w1) =>
      (Throw (TypeError "room.addUser is not a function"), w1)
  | (Normal (a_room room), w1) =>
      let '(c, h) := addUser socket (mkHeap room (server w1)) in
      let w2 := mkWorld (<[room_key roomId := a_room (this h)]> (karaokeRooms w1)) (io h) in
      match c with
      | Throw e => (Throw e, w2)
      | Normal _ =>
          match read_property (adapter_rooms (server w2) !! room_key roomId)
                              (room_key roomId) with
          | no_property =>
              (Throw (TypeError "Cannot read property 'sockets' of undefined"), w2)
          | inherited _ =>
              (Throw (TypeError "Cannot convert undefined or null to object"), w2)
          | own members =>
              let connectedSocketIds := filter (λ id, id ≠ socket_id socket) members in
              let connectedSockets := pick (connected (server w2)) connectedSocketIds in
              (Normal tt,
               mkWorld (karaokeRooms w2)
                       (foldl (advertise socket) (server w2) connectedSockets))
          end
      end
  end.

(** The members of a room other than the given socket. *)
Definition other_members (socket : Socket) (s : Io) : list SessionId :=
  filter (λ id, id ≠ socket_id socket)
         (default [] (adapter_rooms s !! room_key (handshake_query_room socket))).


(** ** Sample sessions, songs and rooms *)

Definition alice : Socket := mkSocket "alice" (Some "lobby").
Definition bob : Socket := mkSocket "bob" (Some "lobby").
Definition carol : Socket := mkSocket "carol" (Some "lobby").

Definition song_a : VideoData := mkVideoData "Africa" "https://youtu.be/a".
Definition song_b : VideoData := mkVideoData "Bohemian Rhapsody" "https://youtu.be/b".

(** A room straight out of the constructor, on a server with no traffic. *)
Definition lobby : Heap :=
  mkHeap (mkKaraokeRoom "lobby" [] None 0 [] [] None) (mkIo ∅ ∅ []).

(** Alice and Bob are in; Alice's song is loading and Bob's is queued. *)
Definition two_singers : list Op :=
  [AddUser alice; AddUser bob;
   EnqueueSong (Some song_a) "alice"; EnqueueSong (Some song_b) "bob"].

(** Alice is alone in the room and her song is playing. *)
Definition solo_playing : list Op :=
  [AddUser alice; EnqueueSong (Some song_a) "alice"; ClientReady alice].

(** Every room is registered under its own id, and a built-in only under
    the name it was found by. *)
Definition registry_consistent (w : World) : Prop :=
  ∀ id entry, karaokeRooms w !! id = Some entry →
    match entry with
    | a_room room => room_id room = id
    | a_builtin name => name = id ∧ id ∈ Object_prototype_names
    end.

(** The room ids [initializeRoom] runs the constructor for, when nothing is
    registered under them, and the connections that find a room: it is
    registered already, or the id is one of those. *)
Definition names_a_room (roomId : option RoomId) : Prop :=
  ∃ r, roomId = Some r ∧ r ≠ "" ∧ r ∉ Object_prototype_names.

Definition finds_a_room (w : World) (roomId : option RoomId) : Prop :=
  (∃ room, karaokeRooms w !! room_key roomId = Some (a_room room)) ∨ names_a_room roomId.

(** The fields the constructor assigns. *)
Definition empty_room (id : RoomId) : KaraokeRoom :=
  mkKaraokeRoom id [] None 0 [] [] None.

(** The room a connection lands in. *)
Definition room_for (w : World) (roomId : option RoomId) : KaraokeRoom :=
  match karaokeRooms w !! room_key roomId with
  | Some (a_room room) => room
  | _ => empty_room (room_key roomId)
  end.

(** The frames a connection handler added to the wire. *)
Definition sent (w w' : World) : list Emit :=
  drop (length (wire (server w))) (wire (server w')).

(** A server on which Alice and Bob are connected and no room exists yet,
    and the same server once Alice has joined the lobby. *)
Definition quiet_server : World :=
  mkWorld ∅ (mkIo (<["bob" := bob]> (<["alice" := alice]> ∅)) ∅ []).

Definition alice_in_lobby : World := (onConnection alice quiet_server).2.



(** Sockets whose handshake names no room, an empty one, and one that
    spells a property of [Object.prototype]. *)
Definition dave : Socket := mkSocket "dave" None.
Definition erin : Socket := mkSocket "erin" (Some "").
Definition frank : Socket := mkSocket "frank" (Some "constructor").

(** A socket that asks for the room "undefined", as a client does whose
    own room id is not set. *)
Definition gina : Socket := mkSocket "gina" (Some "undefined").

(** Under the names of [Object.prototype] the registry holds nothing or the
    built-in of that name, and never anything under "__proto__". *)
Definition builtin_names_hold_no_room (w : World) : Prop :=
  ∀ name : RoomId, name ∈ Object_prototype_names →
    karaokeRooms w !! name = None ∨
    (name ≠ "__proto__" ∧ karaokeRooms w !! name = Some (a_builtin name)).


(** ** Derived views of a room *)

(** The songs of a room in playing order: the one in place, then the queue. *)
Definition lineup (r : KaraokeRoom) : list Song :=
  option_list (nowPlaying r) ++ songQueue r.

(** The songs a run of events submits, in order. *)
Definition submitted (ops : list Op) : list Song :=
  flat_map (λ o, match o with
                 | EnqueueSong v u => [mkSong u v]
                 | _ => []
                 end) ops.


(** [cycleSongs] called [k] times in a row. *)
Definition skips (k : nat) (h : Heap) : Heap :=
  run (replicate k CycleSongs) h.

(** Invariant 1 of the data model. *)
Definition status_matches_song (r : KaraokeRoom) : Prop :=
  nowPlaying r = None ↔ playerStatus r = None.

(** Invariant 3 of the data model. *)
Definition playing_means_ready (r : KaraokeRoom) : Prop :=
  playerStatus r = Some PLAYING → awaitingClients r = [].

(** A frame of a room goes to the room itself or to one socket. *)
Definition addressed_within (id : RoomId) (e : Emit) : Prop :=
  match e.1 with
  | to_room r => r = id
  | to_socket _ => True
  | from_socket_to_room _ _ => False
  end.

(** What a handler of a room may do to the server: keep the room's id,
    touch no other room of the adapter, and add frames addressed to the room
    or to single sockets. *)
Definition within_room (h h' : Heap) : Prop :=
  room_id (this h') = room_id (this h) ∧
  (∀ r, r ≠ room_id (this h) → adapter_rooms (io h') !! r = adapter_rooms (io h) !! r) ∧
  ∃ l, wire (io h') = wire (io h) ++ l ∧
       Forall (addressed_within (room_id (this h))) l.

(** ** Derived views of the server *)

(** The listed sockets connect one after the other. *)
Definition joins (sockets : list Socket) (w : World) : World :=
  foldl (λ w socket, (onConnection socket w).2) w sockets.

Definition to_single_socket (e : Emit) : Prop :=
  ∃ socket, e.1 = to_socket socket.

(** ** The browser side: [attachClientSocket.js] and [peer.js] *)

(** The values a handler reads out of a payload. *)
#[local] Unset Elimination Schemes.
Inductive JsValue :=
| js_undefined
| js_null
| js_number (z : Z)
| js_string (s : string)
| js_object (props : list (string * JsValue)).
#[local] Set Elimination Schemes.

(** [value.name]: a missing property reads as [undefined]; reading a
    property of [undefined] or [null] throws. *)
Definition js_member (name : string) (value : JsValue) : Completion JsValue :=
  match value with
  | js_object props => Normal (default js_undefined (JsObject.get name props))
  | js_undefined =>
      Throw (TypeError ("Cannot read property '" +:+ name +:+ "' of undefined"))
  | js_null =>
      Throw (TypeError ("Cannot read property '" +:+ name +:+ "' of null"))
  | js_number _ | js_string _ => Normal js_undefined
  end.

(** The objects the room puts into a "room-data" frame.  A song queued
    without video data arrives without that property. *)
Definition videoData_value (v : VideoData) : JsValue :=
  js_object [("title", js_string (title v)); ("url", js_string (url v))].

Definition song_value (s : Song) : JsValue :=
  js_object [("singerId", js_string (singerId s));
             ("videoData", from_option videoData_value js_undefined (videoData s))].

Definition roomData_value (d : RoomData) : JsValue :=
  js_object [("currentSong", from_option song_value js_null (currentSong d));
             ("currentSinger", from_option js_string js_null (currentSinger d));
             ("upNext", from_option song_value js_undefined (upNext d));
             ("position", js_number (position d))].

(** A [simple-peer] object as far as [peer.js] uses it: the id it was
    created for, the [initiator] option, the [destroyed] flag and the
    payloads handed to [peer.signal], oldest first. *)
Record LocalPeer := mkLocalPeer {
  remote : SessionId;
  initiator_option : bool;
  destroyed : bool;
  signalled : list string
}.

(** The component [attachClientSocket] is given: its socket, the keys of
    its state that the handlers write, and every peer object made by
    [initializePeer], each with its own "signal" listener on the socket.
    [state.peers] maps a peer id to the object it holds, by position.  A
    [setState] is taken to be applied before the next frame is handled. *)
Record Parent := mkParent {
  parent_socket : Socket;
  state_currentSong : JsValue;
  state_currentSinger : JsValue;
  state_notification : option string;
  state_songInputNotification : option string;
  state_peers : JsObject.t nat;
  peer_objects : list LocalPeer
}.

(** The "room-data" listener. *)
Definition client_on_room_data (data : JsValue) (p : Parent) : Completion unit * Parent :=
  match js_member "nowPlaying" data with
  | Throw e => (Throw e, p)
  | Normal nowPlaying1 =>
      match js_member "videoData" nowPlaying1 with
      | Throw e => (Throw e, p)
      | Normal song =>
          match js_member "nowPlaying" data with
          | Throw e => (Throw e, p)
          | Normal nowPlaying2 =>
              match js_member "singerId" nowPlaying2 with
              | Throw e => (Throw e, p)
              | Normal singer =>
                  (Normal tt,
                   mkParent (parent_socket p) song singer (state_notification p)
                            (state_songInputNotification p) (state_peers p) (peer_objects p))
              end
          end
      end
  end.

(** The "notification" listener and the callback it hands to [setTimeout]. *)
Definition client_on_notification (message : string) (p : Parent) : Parent :=
  mkParent (parent_socket p) (state_currentSong p) (state_currentSinger p) (Some message)
           (state_songInputNotification p) (state_peers p) (peer_objects p).

Definition notification_timeout (message : string) (p : Parent) : Parent :=
  if decide (state_notification p = Some message) then
    mkParent (parent_socket p) (state_currentSong p) (state_currentSinger p) None
             (state_songInputNotification p) (state_peers p) (peer_objects p)
  else p.

(** The "song-added-success" listener and its timeout callback. *)
Definition client_on_song_added_success (message : string) (p : Parent) : Parent :=
  mkParent (parent_socket p) (state_currentSong p) (state_currentSinger p)
           (state_notification p) (Some message) (state_peers p) (peer_objects p).

Definition song_added_timeout (p : Parent) : Parent :=
  mkParent (parent_socket p) (state_currentSong p) (state_currentSinger p)
           (state_notification p) None (state_peers p) (peer_objects p).

(** The "peer" listener: [initializePeer] makes a peer object with the
    [initiator] option of the frame, and [state.peers] gets an entry for the
    peer id, in place when there was one. *)
Definition client_on_peer (peerId : SessionId) (initiator : bool) (p : Parent) : Parent :=
  mkParent (parent_socket p) (state_currentSong p) (state_currentSinger p)
           (state_notification p) (state_songInputNotification p)
           (JsObject.set peerId (length (peer_objects p)) (state_peers p))
           (peer_objects p ++ [mkLocalPeer peerId initiator false []]).

(** The "signal" listener [initializePeer] registers for one peer object. *)
Definition peer_on_socket_signal (peers : JsObject.t nat) (payload : string)
    (from : SessionId) (peer : LocalPeer) : LocalPeer :=
  if bool_decide (from = remote peer) && bool_decide (is_Some (JsObject.get (remote peer) peers))
  then
    if destroyed peer then peer
    else mkLocalPeer (remote peer) (initiator_option peer) false (signalled peer ++ [payload])
  else peer.

(** A "signal" frame reaches every listener registered so far. *)
Definition client_on_signal (payload : string) (from : SessionId) (p : Parent) : Parent :=
  mkParent (parent_socket p) (state_currentSong p) (state_currentSinger p)
           (state_notification p) (state_songInputNotification p) (state_peers p)
           (peer_on_socket_signal (state_peers p) payload from <$> peer_objects p).

(** [peer.on("signal")]: what the socket emits when a peer object has a
    payload for its remote side. *)
Definition peer_on_signal (peer : LocalPeer) (payload : string) : SignalData :=
  mkSignalData payload (remote peer).

(** A frame sent to a single socket, as the component behind that socket
    handles it; the component behind another socket does not see it.  A
    listener that throws leaves the state as it was.  [None] stands for the
    frames whose listeners are not in [attachClientSocket.js] or [peer.js]
    as modelled here: broadcasts to a room and "video-control". *)
Definition client_receive (e : Emit) (p : Parent) : option Parent :=
  match e with
  | (to_socket socket, event) =>
      if decide (socket = parent_socket p) then
        match event with
        | room_data d => Some (client_on_room_data (roomData_value d) p).2
        | song_added_success message => Some (client_on_song_added_success message p)
        | notification message => Some (client_on_notification message p)
        | peer peerId initiator => Some (client_on_peer peerId initiator p)
        | signal payload from => Some (client_on_signal payload from p)
        | video_control _ | destroy _ | disconnect_video _ => None
        end
      else Some p
  | _ => None
  end.

Definition client_receive_all (frames : list Emit) (p : Parent) : option Parent :=
  foldl (λ o e, o ≫= client_receive e) (Some p) frames.

(** * Properties *)

(** ** The monad and the methods, as equations *)

(** Unfold the primitives of the monad in a method body applied to a heap. *)
Ltac run_method :=
  cbv [playVideo stopVideo videoControl notifyRoom sendRoomData roomData
       refreshAwaitingClients removeUserFromAwaiting videoData_title
       initKaraokeUserSocket teardownKaraokeUserSocket socket_join
       gets modify emit throw mbind M_bind mret M_ret];
  cbn.

Lemma bind_normal {A B} (m : M A) (f : A → M B) (h h' : Heap) (a : A) :
  m h = (Normal a, h') → (m ≫= f) h = f a h'.
Proof. unfold mbind, M_bind. by intros ->. Qed.

Lemma bind_throw {A B} (m : M A) (f : A → M B) (h h' : Heap) (e : JsError) :
  m h = (Throw e, h') → (m ≫= f) h = (Throw e, h').
Proof. unfold mbind, M_bind. by intros ->. Qed.

Lemma cycleSongs_eq (h : Heap) :
  cycleSongs h =
    match songQueue (this h) with
    | song :: q =>
        let loading :=
          mkKaraokeRoom (room_id (this h)) q (Some song) 0 (users (this h))
                        (JsObject.keys (users (this h))) (Some UNSTARTED) in
        match videoData song with
        | Some v =>
            (Normal tt,
             mkHeap loading
                    (io_emit (to_room (room_id (this h)))
                             (notification ("Queueing up " +:+ title v)) (io h)))
        | None =>
            (Throw (TypeError "Cannot read property 'title' of undefined"),
             mkHeap loading (io h))
        end
    | [] =>
        (Normal tt,
         mkHeap (mkKaraokeRoom (room_id (this h)) [] None 0 (users (this h)) [] None)
                (io_emit (to_room (room_id (this h)))
                         (notification "Song Queue is empty. Add more!") (io h)))
    end.
Proof.
  destruct h as [r s]. unfold cycleSongs. run_method.
  destruct (songQueue r) as [|song q]; [done|].
  cbn. by destruct (videoData song).
Qed.

Lemma updateAwaitingClients_eq (socket : Socket) (h : Heap) :
  updateAwaitingClients socket h =
    let a := filter (λ id, id ≠ socket_id socket) (awaitingClients (this h)) in
    match nowPlaying (this h), a with
    | Some song, [] =>
        match videoData song with
        | Some v =>
            (Normal tt,
             mkHeap (set_playerStatus (Some PLAYING) (set_awaitingClients [] (this h)))
                    (io_emit (to_room (room_id (this h))) (video_control PLAYING)
                       (io_emit (to_room (room_id (this h)))
                          (notification ("Now playing: " +:+ title v)) (io h))))
        | None =>
            (Throw (TypeError "Cannot read property 'title' of undefined"),
             mkHeap (set_awaitingClients [] (this h)) (io h))
        end
    | _, _ => (Normal tt, mkHeap (set_awaitingClients a (this h)) (io h))
    end.
Proof.
  destruct h as [r s]. unfold updateAwaitingClients. run_method.
  destruct (nowPlaying r) as [song|]; [|reflexivity].
  destruct (filter _ (awaitingClients r)) as [|x a]; [|reflexivity].
  cbn. by destruct (videoData song).
Qed.

Lemma addUser_eq (socket : Socket) (h : Heap) :
  addUser socket h =
    (Normal tt,
     mkHeap
       (set_awaitingClients
          match awaitingClients (this h) with
          | [] => []
          | _ :: _ => awaitingClients (this h) ++ [socket_id socket]
          end
          (set_users (JsObject.set (socket_id socket) socket (users (this h))) (this h)))
       (io_emit (to_socket socket)
          (room_data (mkRoomData (nowPlaying (this h)) (singerId <$> nowPlaying (this h))
                                 (head (songQueue (this h))) (videoPosition (this h))))
          (mkIo (connected (io h))
                (adapter_add (socket_id socket) (room_id (this h)) (adapter_rooms (io h)))
                (wire (io h))))).
Proof.
  destruct h as [[id q np pos us a st] s]. unfold addUser. run_method.
  by destruct a.
Qed.

Lemma songQueueUpdated_eq (h : Heap) :
  songQueueUpdated h =
    let growth :=
      io_emit (to_room (room_id (this h)))
        (notification (queueGrowthMessage (length (songQueue (this h))))) (io h) in
    match nowPlaying (this h) with
    | Some song =>
        (Normal tt,
         mkHeap (this h)
                (io_emit (to_room (room_id (this h)))
                   (room_data (mkRoomData (Some song) (Some (singerId song))
                                          (head (songQueue (this h))) (videoPosition (this h))))
                   growth))
    | None => cycleSongs (mkHeap (this h) growth)
    end.
Proof.
  destruct h as [r s]. unfold songQueueUpdated. run_method.
  destruct (nowPlaying r) as [song|] eqn:Hnp; cbn; [by rewrite Hnp|done].
Qed.

Lemma addToSongQueue_eq (v : option VideoData) (u : SessionId) (h : Heap) :
  addToSongQueue v u h =
    let pushed := mkHeap (set_songQueue (songQueue (this h) ++ [mkSong u v]) (this h)) (io h) in
    match songQueueUpdated pushed with
    | (Throw e, h1) => (Throw e, h1)
    | (Normal _, h1) =>
        let message :=
          if length (songQueue (this h1)) =? 0 then "Song added. Get ready to sing!"
          else placeInLineMessage (length (songQueue (this h1))) in
        match JsObject.read u (users (this h1)) with
        | own socket =>
            (Normal tt,
             mkHeap (this h1) (io_emit (to_socket socket) (song_added_success message) (io h1)))
        | inherited _ =>
            (Throw (TypeError "this.users[userId].emit is not a function"), h1)
        | no_property =>
            (Throw (TypeError "Cannot read property 'emit' of undefined"), h1)
        end
    end.
Proof.
  unfold addToSongQueue.
  cbv [gets modify mbind M_bind]. cbn [this io].
  destruct (songQueueUpdated _) as [[[]|e] h1]; [|reflexivity].
  cbn. destruct (JsObject.read u (users (this h1))); reflexivity.
Qed.

Lemma removeUser_eq (socket : Socket) (h : Heap) :
  removeUser socket h =
    let leave (h2 : Heap) :=
      (Normal tt,
       mkHeap (set_users (JsObject.delete (socket_id socket) (users (this h2))) (this h2))
              (io h2)) in
    match updateAwaitingClients socket h with
    | (Throw e, h1) => (Throw e, h1)
    | (Normal _, h1) =>
        match nowPlaying (this h1) with
        | Some song =>
            if decide (singerId song = socket_id socket) then
              match cycleSongs (mkHeap (this h1)
                                       (io_emit (to_room (room_id (this h1)))
                                                (video_control ENDED) (io h1))) with
              | (Throw e, h2) => (Throw e, h2)
              | (Normal _, h2) => leave h2
              end
            else leave h1
        | None => leave h1
        end
    end.
Proof.
  cbn zeta. unfold removeUser, teardownKaraokeUserSocket.
  rewrite (bind_normal _ _ h h tt) by reflexivity.
  destruct (updateAwaitingClients socket h) as [[[]|e] h1] eqn:H1.
  - rewrite (bind_normal _ _ h h1 tt) by exact H1.
    rewrite (bind_normal _ _ h1 h1 (nowPlaying (this h1))) by reflexivity.
    destruct (nowPlaying (this h1)) as [song|]; [|reflexivity].
    destruct (decide (singerId song = socket_id socket)); [|reflexivity].
    cbv [stopVideo videoControl gets modify emit mbind M_bind]. cbn [this io from_option].
    by destruct (cycleSongs _) as [[[]|e2] h2].
  - by rewrite (bind_throw _ _ h h1 e) by exact H1.
Qed.

(** ** [this.users] as a dictionary *)


(** ** Cycling the queue *)

(** What [cycleSongs] writes, whether or not it goes on to throw. *)
Lemma cycleSongs_fields (h : Heap) :
  let h' := (cycleSongs h).2 in
  nowPlaying (this h') = head (songQueue (this h)) ∧
  songQueue (this h') = drop 1 (songQueue (this h)) ∧
  videoPosition (this h') = 0%Z ∧
  playerStatus (this h')
    = match head (songQueue (this h)) with Some _ => Some UNSTARTED | None => None end ∧
  users (this h') = users (this h) ∧
  room_id (this h') = room_id (this h) ∧
  awaitingClients (this h')
    = match head (songQueue (this h)) with
      | Some _ => JsObject.keys (users (this h))
      | None => []
      end.
Proof.
  rewrite cycleSongs_eq. destruct (songQueue (this h)) as [|song q]; [done|].
  cbn zeta. by destruct (videoData song).
Qed.


(** ** Draining the barrier *)

Lemma emitted_app (h h' : Heap) (l : list Emit) :
  wire (io h') = wire (io h) ++ l → emitted h h' = l.
Proof. unfold emitted. intros ->. apply drop_app_length. Qed.

(** What [updateAwaitingClients] writes, whether or not it goes on to
    throw. *)
Lemma updateAwaitingClients_fields (socket : Socket) (h : Heap) :
  let h1 := (updateAwaitingClients socket h).2 in
  room_id (this h1) = room_id (this h) ∧
  songQueue (this h1) = songQueue (this h) ∧
  nowPlaying (this h1) = nowPlaying (this h) ∧
  videoPosition (this h1) = videoPosition (this h) ∧
  users (this h1) = users (this h) ∧
  awaitingClients (this h1)
    = filter (λ id, id ≠ socket_id socket) (awaitingClients (this h)) ∧
  (playerStatus (this h1) = playerStatus (this h) ∨
   playerStatus (this h1) = Some PLAYING ∧ awaitingClients (this h1) = []
   ∧ is_Some (nowPlaying (this h))).
Proof.
  rewrite updateAwaitingClients_eq. cbn zeta.
  destruct (nowPlaying (this h)) as [song|] eqn:E;
    [destruct (filter _ (awaitingClients (this h))) as [|x a] eqn:F;
       [destruct (videoData song)|]|]; cbn;
    rewrite ?E; repeat split; eauto 6.
Qed.







(** ** The barrier and the set of users *)

Lemma reachable_run (ops : list Op) (h : Heap) :
  reachable h → reachable (run ops h).
Proof.
  revert h. induction ops as [|o ops IH]; intros h Hh; [done|].
  apply IH. by constructor.
Qed.

Lemma reachable_lobby : reachable lobby.
Proof. by apply (reachable_new (Some "lobby")). Qed.

Lemma keys_set {A} (o : JsObject.t A) (k k' : string) (v : A) :
  k' ∈ JsObject.keys o → k' ∈ JsObject.keys (JsObject.set k v o).
Proof.
  unfold JsObject.keys. induction o as [|[k0 v0] o IH]; simpl; [by intros ?%elem_of_nil|].
  rewrite elem_of_cons. intros [->|Hin]; destruct (decide (k0 = k)) as [->|]; simpl;
    rewrite elem_of_cons; auto.
Qed.

Lemma keys_set_new {A} (o : JsObject.t A) (k : string) (v : A) :
  k ∈ JsObject.keys (JsObject.set k v o).
Proof.
  unfold JsObject.keys. induction o as [|[k0 v0] o IH]; simpl; [apply list_elem_of_here|].
  destruct (decide (k0 = k)) as [->|]; simpl; rewrite elem_of_cons; auto.
Qed.

Lemma get_set {A} (o : JsObject.t A) (k : string) (v : A) :
  JsObject.get k (JsObject.set k v o) = Some v.
Proof.
  induction o as [|[k0 v0] o IH]; simpl.
  - by rewrite decide_True.
  - destruct (decide (k0 = k)) as [->|Hne]; simpl; [by rewrite decide_True | by rewrite decide_False].
Qed.

Lemma keys_delete {A} (o : JsObject.t A) (k : string) :
  JsObject.keys (JsObject.delete k o) = filter (λ id, id ≠ k) (JsObject.keys o).
Proof.
  unfold JsObject.keys, JsObject.delete. induction o as [|[k0 v0] o IH]; [done|].
  rewrite fmap_cons. cbn [fst].
  destruct (decide (k0 = k)) as [->|Hne].
  - rewrite filter_cons_False by auto.
    by rewrite (filter_cons_False (λ kv : string * A, kv.1 ≠ k)) by (cbn; auto).
  - rewrite filter_cons_True by done.
    rewrite (filter_cons_True (λ kv : string * A, kv.1 ≠ k)) by done.
    rewrite fmap_cons. cbn [fst]. f_equal. exact IH.
Qed.


Lemma filter_absent (a : list SessionId) (k : SessionId) :
  k ∉ a → filter (λ id, id ≠ k) a = a.
Proof.
  induction a as [|x a IH]; [done|].
  rewrite not_elem_of_cons. intros [Hne Hnin].
  rewrite filter_cons. rewrite decide_True by congruence. by rewrite IH.
Qed.


(** What [addToSongQueue] does to the room is what [songQueueUpdated] did
    after the push. *)
Lemma addToSongQueue_this (v : option VideoData) (u : SessionId) (h : Heap) :
  this (addToSongQueue v u h).2
    = this (songQueueUpdated
              (mkHeap (set_songQueue (songQueue (this h) ++ [mkSong u v]) (this h)) (io h))).2.
Proof.
  rewrite addToSongQueue_eq. cbn zeta.
  destruct (songQueueUpdated _) as [[[]|e] h1]; [|done].
  cbn [snd]. by destruct (JsObject.read u (users (this h1))).
Qed.

Lemma songQueueUpdated_this (h : Heap) :
  this (songQueueUpdated h).2
    = match nowPlaying (this h) with
      | Some _ => this h
      | None => this (cycleSongs h).2
      end.
Proof.
  rewrite songQueueUpdated_eq. cbn zeta.
  destruct (nowPlaying (this h)); [done|].
  rewrite !cycleSongs_eq. cbn [this io].
  destruct (songQueue (this h)) as [|song q]; [done|].
  cbn zeta. by destruct (videoData song).
Qed.

(** The room after [removeUser]: the report, then for the singer of the
    song in place the cycle, then, unless one of the two threw, the entry
    of [users] deleted. *)
Lemma removeUser_this (socket : Socket) (h : Heap) :
  let h1 := (updateAwaitingClients socket h).2 in
  let stopped := mkHeap (this h1) (io_emit (to_room (room_id (this h1)))
                                            (video_control ENDED) (io h1)) in
  ∃ r us,
    (r = this h1 ∨
     (∃ song, nowPlaying (this h1) = Some song ∧ singerId song = socket_id socket) ∧
     r = this (cycleSongs stopped).2) ∧
    ((∀ song, nowPlaying (this h1) = Some song → singerId song = socket_id socket →
        r = this (cycleSongs stopped).2) ∨
     is_thrown (updateAwaitingClients socket h).1 = true) ∧
    (us = users r ∨ us = JsObject.delete (socket_id socket) (users r)) ∧
    (is_thrown (removeUser socket h).1 = false →
       us = JsObject.delete (socket_id socket) (users r)) ∧
    this (removeUser socket h).2 = set_users us r.
Proof.
  cbn zeta. rewrite removeUser_eq. cbn zeta.
  destruct (updateAwaitingClients socket h) as [[[]|e] h1]; cbn [snd fst].
  - destruct (nowPlaying (this h1)) as [song|] eqn:Hnp.
    + destruct (decide (singerId song = socket_id socket)) as [Heq|Hne].
      * destruct (cycleSongs _) as [[[]|e2] h2] eqn:Hc; cbn [snd fst];
          eexists (this h2), _;
          (split; [right; split; [by eauto | done]|]);
          (split; [left; by intros|]).
        -- split; [by right|]. split; [done|]. reflexivity.
        -- split; [by left|]. split; [done|]. by destruct (this h2).
      * eexists (this h1), _. split; [by left|].
        split; [left; intros song' [= <-]; done|].
        split; [by right|]. split; [done|]. reflexivity.
    + eexists (this h1), _. split; [by left|].
      split; [left; by intros|].
      split; [by right|]. split; [done|]. reflexivity.
  - eexists (this h1), _. split; [by left|]. split; [by right|].
    split; [by left|]. split; [done|]. by destruct (this h1).
Qed.

(** C3: the barrier does not stay within [users].  Alice and Bob join, each
    queues a song, Alice's is loading; Alice disconnects.  [removeUser]
    takes her off the barrier, then, as she is the singer, cycles to Bob's
    song, which refills the barrier from [users] while she is still in it,
    and only then deletes her.  She is left on the barrier of a room she is
    not a user of, and Bob's readiness report cannot start the song. *)
Theorem singer_disconnect_leaves_stale_barrier :
  let h := run (two_singers ++ [RemoveUser alice]) lobby in
  reachable h ∧
  user_ids (this h) = ["bob"] ∧
  awaitingClients (this h) = ["alice"; "bob"] ∧
  ¬ awaiting_within_users (this h) ∧
  awaitingClients (this (step (ClientReady bob) h)) = ["alice"] ∧
  playerStatus (this (step (ClientReady bob) h)) = Some UNSTARTED.
Proof.
  split; [apply reachable_run, reachable_lobby|].
  repeat split; try (vm_compute; reflexivity).
  intros Hsub. specialize (Hsub "alice").
  assert (Hin : "alice" ∈ user_ids (this (run (two_singers ++ [RemoveUser alice]) lobby))).
  { apply Hsub. vm_compute. apply list_elem_of_here. }
  vm_compute in Hin. apply list_elem_of_singleton in Hin. discriminate.
Qed.

(** Every event but the disconnect of the current singer with a song
    waiting in the queue keeps the barrier within [users]. *)
Lemma step_keeps_awaiting_within_users (o : Op) (h : Heap) :
  awaiting_within_users (this h) →
  (∀ socket song, o = RemoveUser socket → nowPlaying (this h) = Some song →
     singerId song = socket_id socket → songQueue (this h) = []) →
  awaiting_within_users (this (step o h)).
Proof.
  unfold awaiting_within_users, user_ids, step. intros Hinv Hsinger.
  assert (Hcyc : ∀ h0, awaitingClients (this (cycleSongs h0).2)
                         ⊆ JsObject.keys (users (this (cycleSongs h0).2))).
  { intros h0. destruct (cycleSongs_fields h0) as (_ & _ & _ & _ & -> & _ & ->).
    destruct (head (songQueue (this h0))); [done | by intros ? ?%elem_of_nil]. }
  destruct o as [socket|socket|v u| |socket]; cbn [exec].
  - rewrite addUser_eq. cbn. destruct (awaitingClients (this h)) as [|x0 a] eqn:Ha;
      intros x Hx.
    + by apply elem_of_nil in Hx.
    + apply elem_of_app in Hx as [Hx|Hx%list_elem_of_singleton].
      * by apply keys_set, Hinv.
      * subst x. apply keys_set_new.
  - destruct (removeUser_this socket h) as (r & us & Hr & Hsing & Hus & _ & ->).
    destruct (updateAwaitingClients_fields socket h) as (_ & Hq & Hnp & _ & Hu & Ha & _).
    set (h1 := (updateAwaitingClients socket h).2) in *.
    cbn [set_users users awaitingClients].
    destruct Hr as [->|[(song & Hs1 & Hs2) ->]].
    + rewrite Ha. intros x [Hx1 Hx2]%list_elem_of_filter.
      destruct Hus as [->| ->]; rewrite ?keys_delete, Hu.
      * by apply Hinv.
      * apply list_elem_of_filter. split; [done | by apply Hinv].
    + match goal with
      | |- context [cycleSongs ?h0] =>
          destruct (cycleSongs_fields h0) as (_ & _ & _ & _ & Hcu & _ & Hca)
      end.
      cbn [this] in Hcu, Hca. rewrite Hca, Hq, (Hsinger socket song) by congruence.
      by intros ? ?%elem_of_nil.
  - rewrite addToSongQueue_this, songQueueUpdated_this. cbn [this nowPlaying set_songQueue].
    destruct (nowPlaying (this h)); [exact Hinv | apply Hcyc].
  - apply Hcyc.
  - unfold clientReady.
    destruct (updateAwaitingClients_fields socket h) as (_ & _ & _ & _ & -> & -> & _).
    intros x [_ Hx]%list_elem_of_filter. by apply Hinv.
Qed.

(** C4: [addUser] appends the joining socket's id to a barrier that is
    occupied and leaves an empty barrier empty, whatever is queued or
    loading; the socket is entered in [users] either way. *)
Theorem addUser_joins_only_active_barrier (socket : Socket) (h : Heap) :
  let h' := (addUser socket h).2 in
  (addUser socket h).1 = Normal tt ∧
  JsObject.get (socket_id socket) (users (this h')) = Some socket ∧
  awaitingClients (this h') =
    match awaitingClients (this h) with
    | [] => []
    | _ :: _ => awaitingClients (this h) ++ [socket_id socket]
    end ∧
  nowPlaying (this h') = nowPlaying (this h) ∧
  songQueue (this h') = songQueue (this h) ∧
  playerStatus (this h') = playerStatus (this h).
Proof.
  rewrite addUser_eq. cbn. rewrite get_set. by repeat split.
Qed.

(** ** Submitting a song *)

Lemma cycleSongs_idle_queue_empty (h : Heap) :
  idle_queue_empty (this (cycleSongs h).2).
Proof.
  unfold idle_queue_empty.
  destruct (cycleSongs_fields h) as (-> & -> & _).
  by destruct (songQueue (this h)).
Qed.

Lemma step_idle_queue_empty (o : Op) (h : Heap) :
  idle_queue_empty (this h) → idle_queue_empty (this (step o h)).
Proof.
  unfold step. intros Hinv.
  assert (H1 : ∀ socket, idle_queue_empty (this (updateAwaitingClients socket h).2)).
  { intros socket. unfold idle_queue_empty.
    destruct (updateAwaitingClients_fields socket h) as (_ & -> & -> & _). exact Hinv. }
  destruct o as [socket|socket|v u| |socket]; cbn [exec].
  - rewrite addUser_eq. exact Hinv.
  - destruct (removeUser_this socket h) as (r & us & Hr & _ & _ & _ & ->).
    assert (Hidle : idle_queue_empty r).
    { destruct Hr as [->|[_ ->]]; [apply H1 | apply cycleSongs_idle_queue_empty]. }
    unfold idle_queue_empty in *. exact Hidle.
  - rewrite addToSongQueue_this, songQueueUpdated_this. cbn [this nowPlaying set_songQueue].
    destruct (nowPlaying (this h)) as [song|] eqn:Hnp.
    + unfold idle_queue_empty. cbn. congruence.
    + apply cycleSongs_idle_queue_empty.
  - apply cycleSongs_idle_queue_empty.
  - apply H1.
Qed.

Lemma reachable_new_room (id : option RoomId) (r : KaraokeRoom) :
  KaraokeRoom_new id = Normal r →
  ∃ name, id = Some name ∧ name ≠ "" ∧ r = mkKaraokeRoom name [] None 0 [] [] None.
Proof.
  unfold KaraokeRoom_new. destruct id as [name|]; [|done].
  case_decide; [done|]. intros [= <-]. eauto.
Qed.

Lemma reachable_idle_queue_empty (h : Heap) :
  reachable h → idle_queue_empty (this h).
Proof.
  induction 1 as [id r s Hnew|o h _ IH].
  - by destruct (reachable_new_room id r Hnew) as (name & _ & _ & ->).
  - by apply step_idle_queue_empty.
Qed.

(** C5: in a reachable room with nothing in [nowPlaying], [addToSongQueue]
    appends the song and [songQueueUpdated] goes on to [cycleSongs], which
    makes that song [nowPlaying], UNSTARTED, with the queue empty again.
    With a song in [nowPlaying] the room only gains the new song at the tail
    of the queue, and after the growth notification the room is sent its
    snapshot; [cycleSongs] does not run. *)
Theorem enqueue_cycles_only_when_idle (h : Heap) (v : option VideoData) (u : SessionId) :
  reachable h →
  let song := mkSong u v in
  let pushed := mkHeap (set_songQueue (songQueue (this h) ++ [song]) (this h)) (io h) in
  let growth := (to_room (room_id (this h)),
                 notification (queueGrowthMessage (length (songQueue (this h) ++ [song])))) in
  let h' := (addToSongQueue v u h).2 in
  match nowPlaying (this h) with
  | None =>
      songQueueUpdated pushed
        = cycleSongs (mkHeap (this pushed) (io_emit growth.1 growth.2 (io h))) ∧
      this h' = this (cycleSongs pushed).2 ∧
      nowPlaying (this h') = Some song ∧
      songQueue (this h') = [] ∧
      playerStatus (this h') = Some UNSTARTED
  | Some current =>
      this h' = set_songQueue (songQueue (this h) ++ [song]) (this h) ∧
      emitted h h' =
        [growth;
         (to_room (room_id (this h)),
          room_data (mkRoomData (Some current) (Some (singerId current))
                                (head (songQueue (this h) ++ [song]))
                                (videoPosition (this h))))]
        ++ match JsObject.get u (users (this h)) with
           | Some socket =>
               [(to_socket socket,
                 song_added_success
                   (placeInLineMessage (length (songQueue (this h) ++ [song]))))]
           | None => []
           end
  end.
Proof.
  intros Hreach song pushed growth h'. subst h'.
  pose proof (reachable_idle_queue_empty h Hreach) as Hidle.
  destruct (nowPlaying (this h)) as [current|] eqn:Hnp.
  - rewrite addToSongQueue_eq. cbn zeta. fold song. fold pushed.
    rewrite songQueueUpdated_eq. cbn zeta. subst pushed.
    cbn [this io nowPlaying set_songQueue room_id songQueue].
    rewrite Hnp. cbn [this users set_songQueue songQueue].
    unfold JsObject.read, read_property.
    destruct (JsObject.get u (users (this h))) as [socket|];
      [|case_decide]; cbn [snd this io];
      (split; [done|]); apply emitted_app; cbn; rewrite <- ?app_assoc; try done.
    subst growth. rewrite length_app, Nat.add_comm. reflexivity.
  - rewrite addToSongQueue_this. fold song. fold pushed.
    rewrite songQueueUpdated_this, songQueueUpdated_eq. cbn zeta. subst pushed growth.
    cbn [this io nowPlaying set_songQueue room_id songQueue fst snd].
    rewrite Hnp. split; [done|]. split; [done|].
    destruct (cycleSongs_fields
      (mkHeap (set_songQueue (songQueue (this h) ++ [song]) (this h)) (io h)))
      as (-> & -> & _ & -> & _).
    cbn [this songQueue set_songQueue]. by rewrite (Hidle Hnp).
Qed.

(** Alice, alone in an idle room, submits the first song. *)
Lemma enqueue_cycles_only_when_idle_witness :
  reachable (run [AddUser alice] lobby) ∧
  nowPlaying (this (addToSongQueue (Some song_a) "alice" (run [AddUser alice] lobby)).2)
    = Some (mkSong "alice" (Some song_a)).
Proof.
  assert (Hr : reachable (run [AddUser alice] lobby))
    by apply reachable_run, reachable_lobby.
  split; [exact Hr|].
  exact (proj1 (proj2 (proj2
    (enqueue_cycles_only_when_idle (run [AddUser alice] lobby) (Some song_a) "alice" Hr)))).
Defined.

(** ** The confirmation sent to the submitter *)







(** ** Removing a session that is not in the room *)




(** ** A submitter who is not in the room *)



(** ** The signalling relay *)

(** C8: the relay does not always drop a signal for a peer that is not
    connected.  [io.sockets.connected] is a plain object and the guard only
    tests what was read for truthiness: a [peerId] that is no socket's id
    but spells a property of [Object.prototype] reads as a built-in, passes
    the guard, and the call of its [emit] throws.  For every other [peerId]
    that names no connected socket nothing changes and nothing is sent, and
    for one that names a connected socket that socket gets exactly one
    frame, the signal with the sender's id as [peerId]. *)
Theorem relay_signal_throws_for_inherited_name :
  (connected (server alice_in_lobby) !! "constructor" = None ∧
   on_signal alice (Some (mkSignalData "offer" "constructor")) (server alice_in_lobby)
     = (Throw (TypeError "socket2.emit is not a function"), server alice_in_lobby)) ∧
  ∀ (socket : Socket) (data : SignalData) (s : Io),
    let s' := (on_signal socket (Some data) s).2 in
    connected s' = connected s ∧
    adapter_rooms s' = adapter_rooms s ∧
    match connected s !! data_peerId data with
    | Some socket2 =>
        (on_signal socket (Some data) s).1 = Normal tt ∧
        drop (length (wire s)) (wire s')
          = [(to_socket socket2, signal (data_signal data) (socket_id socket))]
    | None =>
        s' = s ∧
        (on_signal socket (Some data) s).1
          = if decide (data_peerId data ∈ Object_prototype_names)
            then Throw (TypeError "socket2.emit is not a function")
            else Normal tt
    end.
Proof.
  split; [split; vm_compute; reflexivity|].
  intros socket data s. unfold on_signal, read_property.
  destruct (connected s !! data_peerId data) as [socket2|]; cbn.
  - repeat split. apply drop_app_length.
  - repeat case_decide; done.
Qed.

Lemma foldl_advertise (socket : Socket) (sockets : list Socket) (s : Io) :
  foldl (advertise socket) s sockets
    = mkIo (connected s) (adapter_rooms s) (wire s ++ introductions socket sockets).
Proof.
  revert s. induction sockets as [|socket2 sockets IH]; intros s.
  - cbn. rewrite app_nil_r. by destruct s.
  - cbn [foldl]. rewrite IH. cbn. by rewrite <- !app_assoc.
Qed.

Lemma introductions_cons (socket socket2 : Socket) (sockets : list Socket) :
  introductions socket (socket2 :: sockets)
    = (to_socket socket2, peer (socket_id socket) true)
      :: (to_socket socket, peer (socket_id socket2) false)
      :: introductions socket sockets.
Proof. reflexivity. Qed.

Lemma introductions_peers (socket : Socket) (sockets : list Socket) :
  filter (λ e, is_peer e = true) (introductions socket sockets)
    = introductions socket sockets.
Proof.
  induction sockets as [|socket2 sockets IH]; [done|].
  rewrite introductions_cons, !filter_cons_True by done. by rewrite IH.
Qed.

Lemma introductions_length (socket : Socket) (sockets : list Socket) :
  length (introductions socket sockets) = 2 * length sockets.
Proof.
  induction sockets as [|socket2 sockets IH]; [done|].
  rewrite introductions_cons. cbn [length]. lia.
Qed.

Lemma introductions_elem (socket socket2 : Socket) (sockets : list Socket) :
  socket2 ∈ sockets →
  (to_socket socket2, peer (socket_id socket) true) ∈ introductions socket sockets ∧
  (to_socket socket, peer (socket_id socket2) false) ∈ introductions socket sockets.
Proof.
  intros Hin. unfold introductions.
  split; apply list_elem_of_In, in_flat_map;
    exists socket2; (split; [by apply list_elem_of_In | cbn; auto]).
Qed.


Lemma filter_after_join (sid : SessionId) (members : list SessionId) :
  filter (λ id, id ≠ sid) (if decide (sid ∈ members) then members else members ++ [sid])
    = filter (λ id, id ≠ sid) members.
Proof.
  case_decide; [done|]. rewrite filter_app.
  rewrite (filter_cons_False _ sid) by auto. cbn. by rewrite app_nil_r.
Qed.

(** The ways a call of [initializeRoom] can go. *)
Lemma initializeRoom_cases (roomId : option RoomId) (w : World) :
  let key := room_key roomId in
  server (initializeRoom roomId w).2 = server w ∧
  (∀ id, id ≠ key → karaokeRooms (initializeRoom roomId w).2 !! id = karaokeRooms w !! id) ∧
  match karaokeRooms w !! key with
  | Some entry => initializeRoom roomId w = (Normal entry, w)
  | None =>
      if decide (key ∈ Object_prototype_names) then
        initializeRoom roomId w =
          (Normal (a_builtin key),
           if decide (key = "__proto__") then w
           else mkWorld (<[key := a_builtin key]> (karaokeRooms w)) (server w))
      else
        initializeRoom roomId w =
          match roomId with
          | Some r =>
              if decide (r = "") then (Throw (Error "KaraokeRoom requires id"), w)
              else (Normal (a_room (empty_room r)),
                    mkWorld (<[r := a_room (empty_room r)]> (karaokeRooms w)) (server w))
          | None => (Throw (Error "KaraokeRoom requires id"), w)
          end
  end.
Proof.
  cbn zeta. unfold initializeRoom, read_property, KaraokeRoom_new.
  destruct (karaokeRooms w !! room_key roomId) as [entry|] eqn:Hlook; [done|].
  destruct (decide (room_key roomId ∈ Object_prototype_names)) as [Hin|Hout].
  - rewrite ?(decide_True (P := room_key roomId ∈ Object_prototype_names)) by done.
    destruct (decide (room_key roomId = "__proto__")) as [Hp|Hp].
    + rewrite ?(decide_True (P := room_key roomId = "__proto__")) by done. done.
    + rewrite ?(decide_False (P := room_key roomId = "__proto__")) by done.
      cbn [snd server karaokeRooms].
      split; [done|]. split; [|done]. intros id Hne. by rewrite lookup_insert_ne.
  - rewrite ?(decide_False (P := room_key roomId ∈ Object_prototype_names)) by done.
    destruct roomId as [r|]; [|done]. cbn [room_key default] in *.
    destruct (decide (r = "")) as [Hr|Hr].
    + rewrite ?(decide_True (P := r = "")) by done. done.
    + rewrite ?(decide_False (P := r = "")) by done. cbn [snd server karaokeRooms].
      split; [done|]. split; [|done]. intros id Hne. by rewrite lookup_insert_ne.
Qed.

(** What a connection that comes through has sent, whatever the registry
    and the adapter hold. *)
Lemma onConnection_frames (socket : Socket) (w : World) :
  (onConnection socket w).1 = Normal tt →
  ∃ d, wire (server (onConnection socket w).2)
       = wire (server w)
         ++ (to_socket socket, room_data d)
         :: introductions socket
              (pick (connected (server w)) (other_members socket (server w))).
Proof.
  unfold onConnection. cbn zeta.
  destruct (initializeRoom_cases (handshake_query_room socket) w) as (Hserver & _ & _).
  destruct (initializeRoom (handshake_query_room socket) w) as [[[room|name]|e] w1];
    [|done..].
  cbn [snd] in Hserver. rewrite addUser_eq. cbn [this io server karaokeRooms].
  rewrite Hserver. unfold io_emit. cbn [adapter_rooms connected wire].
  set (key := room_key (handshake_query_room socket)).
  unfold read_property.
  assert (Hmembers :
    filter (λ id, id ≠ socket_id socket)
      (default [] (adapter_add (socket_id socket) (room_id room) (adapter_rooms (server w)) !! key))
    = other_members socket (server w)).
  { unfold other_members, adapter_add. fold key.
    destruct (decide (room_id room = key)) as [->|Hne].
    - rewrite lookup_insert_eq. cbn [default]. apply filter_after_join.
    - by rewrite lookup_insert_ne. }
  destruct (adapter_add _ _ _ !! key) as [members|]; [|by case_decide].
  simpl in Hmembers. cbn [fst snd server]. intros _.
  rewrite foldl_advertise. cbn [connected adapter_rooms wire io_emit].
  rewrite Hmembers, <- app_assoc. by eexists.
Qed.




(** * Further properties of the room *)

Lemma run_app (ops1 ops2 : list Op) (h : Heap) :
  run (ops1 ++ ops2) h = run ops2 (run ops1 h).
Proof. unfold run. apply foldl_app. Qed.

(** ** Status, song and barrier *)

Lemma step_status_matches_song (o : Op) (h : Heap) :
  status_matches_song (this h) → status_matches_song (this (step o h)).
Proof.
  unfold step, status_matches_song. intros Hinv.
  assert (Hcyc : ∀ h0, nowPlaying (this (cycleSongs h0).2) = None
                       ↔ playerStatus (this (cycleSongs h0).2) = None).
  { intros h0. destruct (cycleSongs_fields h0) as (-> & _ & _ & -> & _).
    by destruct (head (songQueue (this h0))). }
  assert (Hup : ∀ socket, nowPlaying (this (updateAwaitingClients socket h).2) = None
                          ↔ playerStatus (this (updateAwaitingClients socket h).2) = None).
  { intros socket.
    destruct (updateAwaitingClients_fields socket h) as (_ & _ & Hnp & _ & _ & _ & Hst).
    rewrite Hnp. destruct Hst as [->|(-> & _ & [song Hs])]; [done|].
    rewrite Hs. split; discriminate. }
  destruct o as [socket|socket|v u| |socket]; cbn [exec].
  - rewrite addUser_eq. exact Hinv.
  - destruct (removeUser_this socket h) as (r & us & Hr & _ & _ & _ & ->).
    cbn [set_users nowPlaying playerStatus].
    destruct Hr as [->|[_ ->]]; [apply Hup | apply Hcyc].
  - rewrite addToSongQueue_this, songQueueUpdated_this. cbn [this nowPlaying set_songQueue].
    destruct (nowPlaying (this h)) as [song|] eqn:Hnp; [|apply Hcyc].
    cbn. by rewrite Hnp.
  - apply Hcyc.
  - apply Hup.
Qed.

Lemma step_playing_means_ready (o : Op) (h : Heap) :
  playing_means_ready (this h) → playing_means_ready (this (step o h)).
Proof.
  unfold step, playing_means_ready. intros Hinv.
  assert (Hcyc : ∀ h0, playerStatus (this (cycleSongs h0).2) = Some PLAYING
                       → awaitingClients (this (cycleSongs h0).2) = []).
  { intros h0. destruct (cycleSongs_fields h0) as (_ & _ & _ & -> & _).
    by destruct (head (songQueue (this h0))). }
  assert (Hup : ∀ socket, playerStatus (this (updateAwaitingClients socket h).2) = Some PLAYING
                          → awaitingClients (this (updateAwaitingClients socket h).2) = []).
  { intros socket.
    destruct (updateAwaitingClients_fields socket h) as (_ & _ & _ & _ & _ & Ha & Hst).
    destruct Hst as [->|(_ & -> & _)]; [|done].
    intros Hp. by rewrite Ha, (Hinv Hp). }
  destruct o as [socket|socket|v u| |socket]; cbn [exec].
  - rewrite addUser_eq. cbn. intros Hp. by rewrite (Hinv Hp).
  - destruct (removeUser_this socket h) as (r & us & Hr & _ & _ & _ & ->).
    cbn [set_users awaitingClients playerStatus].
    destruct Hr as [->|[_ ->]]; [apply Hup | apply Hcyc].
  - rewrite addToSongQueue_this, songQueueUpdated_this. cbn [this nowPlaying set_songQueue].
    destruct (nowPlaying (this h)) as [song|] eqn:Hnp; [exact Hinv | apply Hcyc].
  - apply Hcyc.
  - apply Hup.
Qed.

(** X1: in every room reachable from the constructor, [nowPlaying] is
    [null] exactly when [playerStatus] is [null], and then nothing is
    queued. *)
Theorem reachable_status_matches_song (h : Heap) :
  reachable h →
  (nowPlaying (this h) = None ↔ playerStatus (this h) = None) ∧
  (playerStatus (this h) = None → songQueue (this h) = []).
Proof.
  intros Hr.
  assert (Hm : status_matches_song (this h)).
  { induction Hr as [id r s Hnew|o h _ IH].
    - by destruct (reachable_new_room id r Hnew) as (name & _ & _ & ->).
    - by apply step_status_matches_song. }
  split; [exact Hm|]. intros Hs. apply (reachable_idle_queue_empty h Hr). by apply Hm.
Qed.

Lemma reachable_status_matches_song_witness :
  reachable (run two_singers lobby) ∧
  (nowPlaying (this (run two_singers lobby)) = None
   ↔ playerStatus (this (run two_singers lobby)) = None).
Proof.
  assert (Hr : reachable (run two_singers lobby)) by apply reachable_run, reachable_lobby.
  split; [exact Hr|].
  exact (proj1 (reachable_status_matches_song (run two_singers lobby) Hr)).
Defined.

(** X2: in every room reachable from the constructor, a stored status of
    PLAYING means that nobody is left on the barrier. *)
Theorem reachable_playing_means_ready (h : Heap) :
  reachable h →
  playerStatus (this h) = Some PLAYING → awaitingClients (this h) = [].
Proof.
  induction 1 as [id r s Hnew|o h _ IH].
  - by destruct (reachable_new_room id r Hnew) as (name & _ & _ & ->).
  - by apply step_playing_means_ready.
Qed.

Lemma reachable_playing_means_ready_witness :
  reachable (run solo_playing lobby) ∧
  playerStatus (this (run solo_playing lobby)) = Some PLAYING ∧
  awaitingClients (this (run solo_playing lobby)) = [].
Proof.
  assert (Hr : reachable (run solo_playing lobby)) by apply reachable_run, reachable_lobby.
  split; [exact Hr|]. split; [reflexivity|].
  exact (reachable_playing_means_ready (run solo_playing lobby) Hr eq_refl).
Defined.

(** ** Order of play *)

Lemma cycleSongs_lineup (h : Heap) :
  lineup (this (cycleSongs h).2)
    = match nowPlaying (this h) with
      | Some _ => tail (lineup (this h))
      | None => lineup (this h)
      end.
Proof.
  unfold lineup. destruct (cycleSongs_fields h) as (-> & -> & _).
  destruct (nowPlaying (this h)), (songQueue (this h)); reflexivity.
Qed.

Lemma step_lineup (o : Op) (h : Heap) :
  lineup (this (step o h)) = lineup (this h) ++ submitted [o] ∨
  (lineup (this (step o h)) = tail (lineup (this h)) ∧ submitted [o] = []).
Proof.
  unfold step.
  destruct o as [socket|socket|v u| |socket]; cbn [exec submitted flat_map];
    rewrite ?app_nil_r.
  - left. by rewrite addUser_eq.
  - destruct (removeUser_this socket h) as (r & us & Hr & _ & _ & _ & ->).
    destruct (updateAwaitingClients_fields socket h) as (_ & Hq & Hnp & _).
    set (h1 := (updateAwaitingClients socket h).2) in *.
    assert (H1 : lineup (this h1) = lineup (this h)) by (unfold lineup; by rewrite Hq, Hnp).
    change (lineup (set_users us r)) with (lineup r).
    destruct Hr as [->|[(song & Hs & _) ->]]; [by left|].
    right. split; [|done]. rewrite <- H1.
    pose proof (cycleSongs_lineup
      (mkHeap (this h1) (io_emit (to_room (room_id (this h1))) (video_control ENDED) (io h1))))
      as Hc.
    cbn [this] in Hc. rewrite Hs in Hc. exact Hc.
  - left. rewrite addToSongQueue_this, songQueueUpdated_this.
    cbn [this nowPlaying set_songQueue].
    destruct (nowPlaying (this h)) as [song|] eqn:Hnp.
    + unfold lineup; cbn; by rewrite Hnp.
    + rewrite cycleSongs_lineup. cbn [this nowPlaying set_songQueue]. rewrite Hnp.
      unfold lineup. cbn. by rewrite Hnp.
  - rewrite cycleSongs_lineup. destruct (nowPlaying (this h)); [right|left]; done.
  - left. unfold clientReady.
    destruct (updateAwaitingClients_fields socket h) as (_ & Hq & Hnp & _).
    unfold lineup. by rewrite Hq, Hnp.
Qed.

(** X3: songs are played in the order they were submitted.  After any run
    of events, the song in place followed by the queue is what is left of
    the initial line-up followed by the submitted songs once some number of
    songs has been taken from the front: nothing is reordered, nothing is
    dropped from the middle or the back. *)
Theorem lineup_is_first_in_first_out (ops : list Op) (h : Heap) :
  ∃ n, n ≤ length (lineup (this h) ++ submitted ops) ∧
       lineup (this (run ops h)) = drop n (lineup (this h) ++ submitted ops).
Proof.
  revert h. induction ops as [|o ops IH]; intros h.
  - exists 0. split; [lia|]. cbn. by rewrite app_nil_r.
  - change (run (o :: ops) h) with (run ops (step o h)).
    replace (submitted (o :: ops)) with (submitted [o] ++ submitted ops)
      by (cbn; by rewrite app_nil_r).
    destruct (IH (step o h)) as (n & Hn & Heq).
    destruct (step_lineup o h) as [Hl|[Hl Hs]].
    + exists n. rewrite Hl, <- app_assoc in Hn, Heq. by split.
    + rewrite Hs, app_nil_l. rewrite Hl in Hn, Heq.
      destruct (lineup (this h)) as [|x l].
      * exists n. by split.
      * exists (S n). cbn in *. split; [lia | done].
Qed.

Lemma skips_succ (k : nat) (h : Heap) :
  skips (S k) h = (cycleSongs (skips k h)).2.
Proof. unfold skips. by rewrite replicate_S_end, run_app. Qed.

(** X4: skipping through the queue.  After [k + 1] calls of [cycleSongs]
    the song in place is the one that was at index [k] of the queue (none
    when the queue was shorter), the queue has lost its first [k + 1]
    songs, and the status is UNSTARTED with a song and [null] without. *)
Theorem skips_walk_the_queue (k : nat) (h : Heap) :
  let h' := skips (S k) h in
  nowPlaying (this h') = songQueue (this h) !! k ∧
  songQueue (this h') = drop (S k) (songQueue (this h)) ∧
  videoPosition (this h') = 0%Z ∧
  playerStatus (this h')
    = match songQueue (this h) !! k with Some _ => Some UNSTARTED | None => None end ∧
  users (this h') = users (this h).
Proof.
  cbn zeta.
  assert (Hq : ∀ j, songQueue (this (skips j h)) = drop j (songQueue (this h))
                    ∧ users (this (skips j h)) = users (this h)).
  { induction j as [|j [IHq IHu]]; [done|].
    rewrite skips_succ.
    destruct (cycleSongs_fields (skips j h)) as (_ & -> & _ & _ & -> & _).
    by rewrite IHq, drop_drop, Nat.add_comm. }
  destruct (Hq k) as [Hk Hu]. rewrite skips_succ.
  destruct (cycleSongs_fields (skips k h)) as (-> & -> & -> & -> & -> & _).
  rewrite Hk, Hu, drop_drop, Nat.add_comm, head_lookup, lookup_drop, Nat.add_0_r.
  done.
Qed.

(** ** Leaving the room *)


Lemma updateAwaitingClients_wire (socket : Socket) (h : Heap) :
  let h1 := (updateAwaitingClients socket h).2 in
  connected (io h1) = connected (io h) ∧
  adapter_rooms (io h1) = adapter_rooms (io h) ∧
  ∃ l, wire (io h1) = wire (io h) ++ l ∧
       Forall (addressed_within (room_id (this h))) l.
Proof.
  rewrite updateAwaitingClients_eq. cbn zeta.
  destruct (nowPlaying (this h)) as [song|];
    [destruct (filter _ (awaitingClients (this h)));
       [destruct (videoData song)|]|]; cbn; repeat split;
    try (exists []; by rewrite app_nil_r).
  eexists [_; _]. rewrite <- app_assoc. split; [reflexivity|].
  by repeat constructor.
Qed.





Lemma delete_set_fresh {A} (o : JsObject.t A) (k : string) (v : A) :
  k ∉ JsObject.keys o → JsObject.delete k (JsObject.set k v o) = o.
Proof.
  unfold JsObject.keys, JsObject.delete. induction o as [|[k0 v0] o IH]; intros Hk.
  - cbn. by rewrite decide_False by auto.
  - rewrite fmap_cons, not_elem_of_cons in Hk. cbn [fst] in Hk. destruct Hk as [Hne Hk].
    cbn [JsObject.set]. rewrite decide_False by congruence.
    rewrite (filter_cons_True (λ kv : string * A, kv.1 ≠ k)) by (cbn; congruence).
    f_equal. by apply IH.
Qed.

Lemma filter_snoc_absent (a : list SessionId) (k : SessionId) :
  k ∉ a → filter (λ id, id ≠ k) (a ++ [k]) = a.
Proof.
  intros Hk. rewrite filter_app, (filter_absent _ _ Hk).
  rewrite (filter_cons_False _ k) by auto. apply app_nil_r.
Qed.

(** X7: joining and leaving again.  A socket that is new to the room and
    is not the singer of the song in place joins and is removed; as long as
    the barrier was occupied or no song was in place, the room is exactly
    as before, and all that was sent is the newcomer's snapshot. *)
Theorem join_then_leave_restores_room (socket : Socket) (h : Heap) :
  socket_id socket ∉ user_ids (this h) →
  socket_id socket ∉ awaitingClients (this h) →
  (∀ song, nowPlaying (this h) = Some song → singerId song ≠ socket_id socket) →
  awaitingClients (this h) ≠ [] ∨ nowPlaying (this h) = None →
  let h' := run [AddUser socket; RemoveUser socket] h in
  this h' = this h ∧
  emitted h h'
    = [(to_socket socket,
        room_data (mkRoomData (nowPlaying (this h)) (singerId <$> nowPlaying (this h))
                              (head (songQueue (this h))) (videoPosition (this h))))].
Proof.
  intros Hu Ha Hsinger Hquiet h'. subst h'. unfold user_ids in Hu.
  cbn [run foldl]. unfold step. cbn [exec].
  rewrite addUser_eq. cbn [snd]. rewrite removeUser_eq. cbn zeta.
  rewrite updateAwaitingClients_eq. cbn zeta.
  destruct h as [[id q np pos us a st] s].
  cbn [this io nowPlaying awaitingClients users set_awaitingClients set_users room_id
       songQueue videoPosition playerStatus] in *.
  assert (Hf : filter (λ x, x ≠ socket_id socket)
                 match a with [] => [] | _ :: _ => a ++ [socket_id socket] end = a).
  { destruct a as [|x a]; [done|]. by apply filter_snoc_absent. }
  rewrite Hf.
  destruct np as [song|].
  - destruct Hquiet as [Hne|]; [|done]. destruct a as [|x a]; [done|].
    cbn -[JsObject.delete JsObject.set]. rewrite decide_False by by apply Hsinger.
    cbn -[JsObject.delete JsObject.set]. rewrite delete_set_fresh by done.
    split; [done|]. by apply emitted_app.
  - cbn -[JsObject.delete JsObject.set]. rewrite delete_set_fresh by done.
    split; [done|]. by apply emitted_app.
Qed.

Lemma join_then_leave_restores_room_witness :
  (socket_id carol ∉ user_ids (this (run two_singers lobby))) ∧
  this (run [AddUser carol; RemoveUser carol] (run two_singers lobby))
    = this (run two_singers lobby).
Proof.
  assert (Hc : ∀ l, l = ["alice"; "bob"] → socket_id carol ∉ l).
  { intros l -> Hin. repeat (apply elem_of_cons in Hin as [Hin|Hin]); try discriminate.
    by apply elem_of_nil in Hin. }
  assert (Hu : socket_id carol ∉ user_ids (this (run two_singers lobby)))
    by (apply Hc; vm_compute; reflexivity).
  assert (Ha : socket_id carol ∉ awaitingClients (this (run two_singers lobby)))
    by (apply Hc; vm_compute; reflexivity).
  assert (Hs : ∀ song, nowPlaying (this (run two_singers lobby)) = Some song
                       → singerId song ≠ socket_id carol).
  { assert (Hnp : nowPlaying (this (run two_singers lobby))
                  = Some (mkSong "alice" (Some song_a)))
      by (vm_compute; reflexivity).
    rewrite Hnp. intros song [= <-]. discriminate. }
  assert (Hq : awaitingClients (this (run two_singers lobby)) ≠ []
               ∨ nowPlaying (this (run two_singers lobby)) = None).
  { left. assert (Haw : awaitingClients (this (run two_singers lobby)) = ["alice"; "bob"])
      by (vm_compute; reflexivity).
    rewrite Haw. discriminate. }
  split; [exact Hu|].
  exact (proj1 (join_then_leave_restores_room carol (run two_singers lobby) Hu Ha Hs Hq)).
Defined.

(** ** A room keeps to itself *)

Lemma within_room_refl (h : Heap) : within_room h h.
Proof. repeat split. exists []. by rewrite app_nil_r. Qed.

Lemma within_room_trans (h1 h2 h3 : Heap) :
  within_room h1 h2 → within_room h2 h3 → within_room h1 h3.
Proof.
  intros (Hid1 & Ha1 & l1 & Hw1 & Hl1) (Hid2 & Ha2 & l2 & Hw2 & Hl2).
  rewrite Hid1 in *. split; [congruence|]. split.
  - intros r Hr. by rewrite Ha2, Ha1.
  - exists (l1 ++ l2). rewrite Hw2, Hw1, app_assoc. split; [done|].
    by apply Forall_app.
Qed.

Lemma within_room_frames (h : Heap) (r : KaraokeRoom) (l : list Emit) :
  room_id r = room_id (this h) →
  Forall (addressed_within (room_id (this h))) l →
  within_room h (mkHeap r (mkIo (connected (io h)) (adapter_rooms (io h)) (wire (io h) ++ l))).
Proof. intros Hid Hl. split; [done|]. split; [done|]. by exists l. Qed.

Lemma within_room_fields (h : Heap) (r : KaraokeRoom) :
  room_id r = room_id (this h) → within_room h (mkHeap r (io h)).
Proof.
  intros Hid. split; [done|]. split; [done|]. exists []. by rewrite app_nil_r.
Qed.

Lemma within_room_emit_room (h : Heap) (e : Event) :
  within_room h (mkHeap (this h) (io_emit (to_room (room_id (this h))) e (io h))).
Proof.
  split; [done|]. split; [done|]. eexists [_]. split; [done|]. by repeat constructor.
Qed.

Lemma within_room_emit_socket (h : Heap) (socket : Socket) (e : Event) :
  within_room h (mkHeap (this h) (io_emit (to_socket socket) e (io h))).
Proof.
  split; [done|]. split; [done|]. eexists [_]. split; [done|]. by repeat constructor.
Qed.

Lemma cycleSongs_within_room (h : Heap) : within_room h (cycleSongs h).2.
Proof.
  rewrite cycleSongs_eq.
  destruct (songQueue (this h)) as [|song q]; cbn zeta;
    [|destruct (videoData song)]; cbn [snd];
    try (apply within_room_frames; by repeat constructor).
  by apply within_room_fields.
Qed.

Lemma updateAwaitingClients_within_room (socket : Socket) (h : Heap) :
  within_room h (updateAwaitingClients socket h).2.
Proof.
  destruct (updateAwaitingClients_fields socket h) as (Hid & _).
  destruct (updateAwaitingClients_wire socket h) as (_ & Ha & l & Hw & Hl).
  split; [done|]. split; [by rewrite Ha | by exists l].
Qed.

Lemma removeUser_within_room (socket : Socket) (h : Heap) :
  within_room h (removeUser socket h).2.
Proof.
  rewrite removeUser_eq. cbn zeta.
  pose proof (updateAwaitingClients_within_room socket h) as H1.
  destruct (updateAwaitingClients socket h) as [[[]|e] h1]; cbn [snd] in *; [|exact H1].
  eapply within_room_trans; [exact H1|].
  assert (Hleave : ∀ h2, within_room h2
    (mkHeap (set_users (JsObject.delete (socket_id socket) (users (this h2))) (this h2))
            (io h2))).
  { intros h2. by apply within_room_fields. }
  destruct (nowPlaying (this h1)) as [song|]; [|apply Hleave].
  destruct (decide _); [|apply Hleave].
  pose proof (cycleSongs_within_room
    (mkHeap (this h1) (io_emit (to_room (room_id (this h1))) (video_control ENDED) (io h1))))
    as Hc.
  eapply within_room_trans; [apply (within_room_emit_room h1)|].
  destruct (cycleSongs _) as [[[]|e2] h2]; cbn [snd] in *; [|exact Hc].
  eapply within_room_trans; [exact Hc | apply Hleave].
Qed.

Lemma addToSongQueue_within_room (v : option VideoData) (u : SessionId) (h : Heap) :
  within_room h (addToSongQueue v u h).2.
Proof.
  rewrite addToSongQueue_eq. cbn zeta.
  set (pushed := mkHeap (set_songQueue _ (this h)) (io h)).
  assert (H1 : within_room h pushed) by by apply within_room_fields.
  assert (H2 : within_room pushed (songQueueUpdated pushed).2).
  { rewrite songQueueUpdated_eq. cbn zeta.
    destruct (nowPlaying (this pushed)) as [song|].
    - cbn [snd]. eapply within_room_trans; [apply (within_room_emit_room pushed)|].
      exact (within_room_emit_room (mkHeap (this pushed) _) _).
    - eapply within_room_trans; [|apply cycleSongs_within_room].
      apply (within_room_emit_room pushed). }
  eapply within_room_trans; [exact H1|].
  destruct (songQueueUpdated pushed) as [[[]|e] h1]; cbn [snd] in *; [|exact H2].
  eapply within_room_trans; [exact H2|].
  destruct (JsObject.read u _) as [socket| |]; cbn [snd]; try apply within_room_refl.
  apply within_room_emit_socket.
Qed.

(** X8: a room keeps to itself.  Whatever event it handles, a room keeps
    its id, changes no adapter room but its own, and every frame it sends
    goes either to its own room id or to a single socket; frames already on
    the wire stay. *)
Theorem step_stays_within_room (o : Op) (h : Heap) :
  room_id (this (step o h)) = room_id (this h) ∧
  (∀ r, r ≠ room_id (this h) →
        adapter_rooms (io (step o h)) !! r = adapter_rooms (io h) !! r) ∧
  wire (io (step o h)) = wire (io h) ++ emitted h (step o h) ∧
  Forall (addressed_within (room_id (this h))) (emitted h (step o h)).
Proof.
  assert (Hw : within_room h (step o h)).
  { unfold step. destruct o as [socket|socket|v u| |socket]; cbn [exec].
    - rewrite addUser_eq. cbn [snd]. split; [done|]. split.
      + intros r Hr. cbn. unfold adapter_add. by rewrite lookup_insert_ne.
      + eexists [_]. split; [reflexivity|]. by repeat constructor.
    - apply removeUser_within_room.
    - apply addToSongQueue_within_room.
    - apply cycleSongs_within_room.
    - apply updateAwaitingClients_within_room. }
  destruct Hw as (Hid & Ha & l & Hwire & Hl).
  rewrite (emitted_app h (step o h) l Hwire). by repeat split.
Qed.

(** ** Reports that come late *)

Lemma count_frames_app (p : Emit → bool) (l1 l2 : list Emit) :
  count_frames p (l1 ++ l2) = count_frames p l1 + count_frames p l2.
Proof. unfold count_frames. by rewrite filter_app, length_app. Qed.



(** * Further properties of the registry and the relay *)

(** X10: [initializeRoom] is get-or-create on a plain object.  An entry
    registered under the key is returned as it is and the registry is left
    alone.  A key that has no entry but spells a property of
    [Object.prototype] finds the built-in: that is returned and, except
    under "__proto__", stored as the entry; no room is made.  For any other
    key a room straight out of the constructor is registered, unless the
    room id is missing or empty: then the constructor's error comes out and
    the registry is as it was.  A missing room id is looked up under
    "undefined".  Asking again gives the same answer and changes nothing
    more; no other entry and nothing of the server is ever touched. *)
Theorem initializeRoom_get_or_create (roomId : option RoomId) (w : World) :
  let key := room_key roomId in
  let w' := (initializeRoom roomId w).2 in
  match karaokeRooms w !! key with
  | Some entry => initializeRoom roomId w = (Normal entry, w)
  | None =>
      if decide (key ∈ Object_prototype_names) then
        (initializeRoom roomId w).1 = Normal (a_builtin key) ∧
        karaokeRooms w' !! key
          = (if decide (key = "__proto__") then None else Some (a_builtin key))
      else
        match roomId with
        | Some r =>
            if decide (r = "") then
              initializeRoom roomId w = (Throw (Error "KaraokeRoom requires id"), w)
            else
              (initializeRoom roomId w).1 = Normal (a_room (empty_room r)) ∧
              karaokeRooms w' !! r = Some (a_room (empty_room r))
        | None => initializeRoom roomId w = (Throw (Error "KaraokeRoom requires id"), w)
        end
  end ∧
  initializeRoom roomId w' = ((initializeRoom roomId w).1, w') ∧
  (∀ id, id ≠ key → karaokeRooms w' !! id = karaokeRooms w !! id) ∧
  server w' = server w.
Proof.
  cbn zeta.
  destruct (initializeRoom_cases roomId w) as (Hserver & Hothers & Hcase).
  split; [|split; [|by split]].
  - destruct (karaokeRooms w !! room_key roomId) as [entry|] eqn:Hlook; [done|].
    destruct (decide (room_key roomId ∈ Object_prototype_names)) as [Hin|Hout].
    + rewrite Hcase. cbn [fst snd]. split; [done|].
      destruct (decide (room_key roomId = "__proto__")); [done|].
      cbn [karaokeRooms]. by rewrite lookup_insert_eq.
    + destruct roomId as [r|]; [|done]. cbn [room_key default] in *.
      destruct (decide (r = "")); [done|].
      rewrite Hcase. cbn [fst snd karaokeRooms]. by rewrite lookup_insert_eq.
  - destruct (karaokeRooms w !! room_key roomId) as [entry|] eqn:Hlook.
    + rewrite Hcase. cbn [fst snd].
      pose proof (initializeRoom_cases roomId w) as (_ & _ & Hagain).
      by rewrite Hlook in Hagain.
    + destruct (decide (room_key roomId ∈ Object_prototype_names)) as [Hin|Hout].
      * rewrite Hcase. cbn [fst snd].
        destruct (decide (room_key roomId = "__proto__")) as [Hp|Hp].
        -- pose proof (initializeRoom_cases roomId w) as (_ & _ & Hagain).
           rewrite Hlook, decide_True in Hagain by done. rewrite Hagain.
           by rewrite decide_True by done.
        -- pose proof (initializeRoom_cases roomId
             (mkWorld (<[room_key roomId := a_builtin (room_key roomId)]> (karaokeRooms w))
                      (server w))) as (_ & _ & Hagain).
           cbn [karaokeRooms] in Hagain. by rewrite lookup_insert_eq in Hagain.
      * destruct roomId as [r|]; cbn [room_key default] in *.
        -- destruct (decide (r = "")) as [Hr|Hr].
           ++ rewrite Hcase. cbn [fst snd].
              pose proof (initializeRoom_cases (Some r) w) as (_ & _ & Hagain).
              cbn [room_key default] in Hagain.
              rewrite Hlook, decide_False, decide_True in Hagain by done. exact Hagain.
           ++ rewrite Hcase. cbn [fst snd].
              pose proof (initializeRoom_cases (Some r)
                (mkWorld (<[r := a_room (empty_room r)]> (karaokeRooms w)) (server w)))
                as (_ & _ & Hagain).
              cbn [room_key default karaokeRooms] in Hagain.
              by rewrite lookup_insert_eq in Hagain.
        -- rewrite Hcase. cbn [fst snd].
           pose proof (initializeRoom_cases None w) as (_ & _ & Hagain).
           cbn [room_key default] in Hagain.
           rewrite Hlook, decide_False in Hagain by done. exact Hagain.
Qed.

Lemma finds_a_room_or_not (w : World) (roomId : option RoomId) :
  finds_a_room w roomId ∨ ¬ finds_a_room w roomId.
Proof.
  unfold finds_a_room, names_a_room.
  destruct (karaokeRooms w !! room_key roomId) as [[room|name]|] eqn:Hlook;
    [left; left; by eauto|..];
    (destruct roomId as [r|];
       [destruct (decide (r = "")) as [->|Hne];
          [|destruct (decide (r ∈ Object_prototype_names)) as [Hin|Hout]]|]);
    try (left; right; by eauto);
    right; intros [[room Hroom]|(r' & Hr & Hne' & Hout')]; try congruence;
    injection Hr as <-; done.
Qed.

(** A connection that finds its room, with the room it lands in. *)
Lemma onConnection_accepts (socket : Socket) (w : World) :
  registry_consistent w →
  finds_a_room w (handshake_query_room socket) →
  let key := room_key (handshake_query_room socket) in
  let room0 := room_for w (handshake_query_room socket) in
  room_id room0 = key ∧
  onConnection socket w =
    (Normal tt,
     mkWorld (<[key := a_room (this (addUser socket (mkHeap room0 (server w))).2)]>
                (karaokeRooms w))
       (mkIo (connected (server w))
             (adapter_add (socket_id socket) key (adapter_rooms (server w)))
             (wire (server w)
                ++ (to_socket socket,
                    room_data (mkRoomData (nowPlaying room0) (singerId <$> nowPlaying room0)
                                          (head (songQueue room0)) (videoPosition room0)))
                :: introductions socket
                     (pick (connected (server w)) (other_members socket (server w)))))).
Proof.
  intros Hreg Hfinds key room0. subst key room0.
  assert (Hinit :
    room_id (room_for w (handshake_query_room socket))
      = room_key (handshake_query_room socket) ∧
    ∃ w1, initializeRoom (handshake_query_room socket) w
            = (Normal (a_room (room_for w (handshake_query_room socket))), w1)
          ∧ server w1 = server w
          ∧ ∀ entry, <[room_key (handshake_query_room socket) := entry]> (karaokeRooms w1)
                     = <[room_key (handshake_query_room socket) := entry]> (karaokeRooms w)).
  { destruct (initializeRoom_cases (handshake_query_room socket) w) as (_ & _ & Hcase).
    unfold room_for.
    destruct (karaokeRooms w !! room_key (handshake_query_room socket))
      as [[room|name]|] eqn:Hlook.
    - split; [by apply (Hreg _ (a_room room))|]. by exists w.
    - exfalso. destruct (Hreg _ (a_builtin name) Hlook) as [_ Hin].
      destruct Hfinds as [[room Hroom]|(r & Hr & _ & Hout)]; [congruence|].
      rewrite Hr in Hin. by apply Hout.
    - destruct Hfinds as [[room Hroom]|(r & Hr & Hne & Hout)]; [congruence|].
      rewrite Hr in *. cbn [room_key default] in *.
      rewrite decide_False in Hcase by done. rewrite decide_False in Hcase by done.
      split; [done|]. eexists. split; [exact Hcase|]. split; [done|].
      intros entry. cbn [karaokeRooms]. by rewrite insert_insert_eq. }
  destruct Hinit as (Hid & w1 & Hinit & Hserver & Hrooms). split; [exact Hid|].
  assert (Hm : ∃ members,
    adapter_add (socket_id socket) (room_key (handshake_query_room socket))
                (adapter_rooms (server w)) !! room_key (handshake_query_room socket)
      = Some members ∧
    filter (λ id, id ≠ socket_id socket) members = other_members socket (server w)).
  { unfold adapter_add, other_members. rewrite lookup_insert_eq. eexists.
    split; [done|]. apply filter_after_join. }
  destruct Hm as (members & Hm1 & Hm2).
  unfold onConnection. cbn zeta. rewrite Hinit. cbn [server karaokeRooms].
  rewrite Hserver, !addUser_eq.
  cbn [this io server karaokeRooms]. rewrite Hid.
  unfold io_emit. cbn [adapter_rooms connected wire]. rewrite Hm1.
  unfold read_property. cbn [fst snd server karaokeRooms].
  rewrite foldl_advertise. cbn [connected adapter_rooms wire].
  rewrite Hm2, Hrooms. by rewrite <- app_assoc.
Qed.

(** A connection that finds no room is turned away by [initializeRoom] or
    at the call of [addUser]; the server is as it was. *)
Lemma onConnection_turned_away (socket : Socket) (w : World) :
  ¬ finds_a_room w (handshake_query_room socket) →
  is_thrown (onConnection socket w).1 = true ∧
  (onConnection socket w).2 = (initializeRoom (handshake_query_room socket) w).2 ∧
  server (onConnection socket w).2 = server w.
Proof.
  intros Hno.
  destruct (initializeRoom_cases (handshake_query_room socket) w) as (Hserver & _ & Hcase).
  unfold onConnection. cbn zeta.
  set (key := room_key (handshake_query_room socket)) in *.
  destruct (karaokeRooms w !! key) as [[room|name]|] eqn:Hlook.
  - exfalso. apply Hno. left. by exists room.
  - by rewrite Hcase.
  - destruct (decide (key ∈ Object_prototype_names)) as [Hin|Hout].
    + rewrite Hcase in Hserver |- *. by cbn [fst snd] in *.
    + destruct (handshake_query_room socket) as [r|] eqn:Hr; [|by rewrite Hcase].
      cbn [room_key default] in *. subst key.
      destruct (decide (r = "")) as [Hempty|Hne]; [by rewrite Hcase|].
      exfalso. apply Hno. right. by exists r.
Qed.

(** Connections keep every room registered under its own id. *)
Lemma onConnection_registry_consistent (socket : Socket) (w : World) :
  registry_consistent w → registry_consistent (onConnection socket w).2.
Proof.
  intros Hreg.
  assert (Hinit : registry_consistent (initializeRoom (handshake_query_room socket) w).2).
  { destruct (initializeRoom_cases (handshake_query_room socket) w) as (_ & _ & Hcase).
    set (key := room_key (handshake_query_room socket)) in *.
    destruct (karaokeRooms w !! key) as [entry|] eqn:Hlook; [by rewrite Hcase|].
    destruct (decide (key ∈ Object_prototype_names)) as [Hin|Hout].
    - rewrite Hcase. cbn [snd]. destruct (decide (key = "__proto__")); [done|].
      intros id entry. cbn [karaokeRooms].
      intros [[<- <-]|[_ Hold]]%lookup_insert_Some; [done | by apply Hreg].
    - destruct (handshake_query_room socket) as [r|]; [|by rewrite Hcase].
      cbn [room_key default] in *. subst key.
      destruct (decide (r = "")); [by rewrite Hcase|].
      rewrite Hcase. cbn [snd]. intros id entry. cbn [karaokeRooms].
      intros [[<- <-]|[_ Hold]]%lookup_insert_Some; [done | by apply Hreg]. }
  destruct (finds_a_room_or_not w (handshake_query_room socket)) as [Hfinds|Hno].
  - destruct (onConnection_accepts socket w Hreg Hfinds) as [Hid ->].
    intros id entry. cbn [snd karaokeRooms].
    intros [[<- <-]|[_ Hold]]%lookup_insert_Some; [|by apply Hreg].
    rewrite addUser_eq. exact Hid.
  - destruct (onConnection_turned_away socket w Hno) as (_ & -> & _). exact Hinit.
Qed.

(** One connection leaves the registry entries under other keys alone. *)
Lemma onConnection_other_rooms (socket : Socket) (w : World) (id : RoomId) :
  id ≠ room_key (handshake_query_room socket) →
  karaokeRooms (onConnection socket w).2 !! id = karaokeRooms w !! id.
Proof.
  intros Hne. unfold onConnection. cbn zeta.
  destruct (initializeRoom_cases (handshake_query_room socket) w) as (_ & Hothers & _).
  specialize (Hothers id Hne).
  destruct (initializeRoom (handshake_query_room socket) w) as [[[room|name]|e] w1];
    cbn [snd] in Hothers; [|done..].
  rewrite addUser_eq. cbn [server io this].
  destruct (read_property _ _); cbn [snd karaokeRooms];
    by rewrite lookup_insert_ne.
Qed.

Lemma joins_snoc (sockets : list Socket) (socket : Socket) (w : World) :
  joins (sockets ++ [socket]) w = (onConnection socket (joins sockets w)).2.
Proof. unfold joins. by rewrite foldl_app. Qed.

Lemma joins_registry_consistent (sockets : list Socket) (w : World) :
  registry_consistent w → registry_consistent (joins sockets w).
Proof.
  intros Hreg. induction sockets as [|socket sockets IH] using rev_ind; [done|].
  rewrite joins_snoc. by apply onConnection_registry_consistent.
Qed.

(** X11: connections to other rooms leave a room alone.  After any number
    of connections none of which is looked up under the key [id], accepted
    or not, the registry holds under [id] the very entry it held before,
    whatever the state of the server. *)
Theorem joins_leave_other_rooms (sockets : list Socket) (w : World) (id : RoomId) :
  (∀ socket, socket ∈ sockets → room_key (handshake_query_room socket) ≠ id) →
  karaokeRooms (joins sockets w) !! id = karaokeRooms w !! id.
Proof.
  induction sockets as [|socket sockets IH] using rev_ind; intros Hall; [done|].
  rewrite joins_snoc, onConnection_other_rooms.
  - apply IH. intros s Hs. apply Hall, elem_of_app. by left.
  - intros Heq. apply (Hall socket); [|done]. apply elem_of_app. right. apply list_elem_of_here.
Qed.

Lemma joins_leave_other_rooms_witness :
  (∀ socket, socket ∈ [alice; bob] → room_key (handshake_query_room socket) ≠ "den") ∧
  karaokeRooms (joins [alice; bob] quiet_server) !! "den"
    = karaokeRooms quiet_server !! "den".
Proof.
  assert (H : ∀ socket, socket ∈ [alice; bob]
                        → room_key (handshake_query_room socket) ≠ "den").
  { intros socket Hin.
    repeat (apply elem_of_cons in Hin as [->|Hin]); [discriminate .. |].
    by apply elem_of_nil in Hin. }
  split; [exact H|].
  exact (joins_leave_other_rooms [alice; bob] quiet_server "den" H).
Defined.

Lemma ordinary_name (name : string) :
  bool_decide (name ∈ Object_prototype_names) = false → name ∉ Object_prototype_names.
Proof. by intros ?%bool_decide_eq_false. Qed.

Lemma onConnection_no_room_id (socket : Socket) (w : World) :
  handshake_query_room socket = Some "" ∨ handshake_query_room socket = None →
  karaokeRooms w !! room_key (handshake_query_room socket) = None →
  onConnection socket w = (Throw (Error "KaraokeRoom requires id"), w).
Proof.
  intros Hroom Hnone.
  destruct (initializeRoom_cases (handshake_query_room socket) w) as (_ & _ & Hcase).
  unfold onConnection. cbn zeta. rewrite Hnone in Hcase.
  destruct Hroom as [Hroom|Hroom]; rewrite Hroom in *; cbn [room_key default] in Hcase;
    rewrite decide_False in Hcase by (by apply ordinary_name);
    by rewrite Hcase.
Qed.

Lemma onConnection_empty_room_id (socket : Socket) (w : World) :
  handshake_query_room socket = Some "" →
  karaokeRooms w !! "" = None →
  onConnection socket w = (Throw (Error "KaraokeRoom requires id"), w).
Proof.
  intros Hroom Hnone. apply onConnection_no_room_id; [by left|].
  rewrite Hroom. exact Hnone.
Qed.

Lemma onConnection_missing_room_id (socket : Socket) (w : World) :
  handshake_query_room socket = None →
  karaokeRooms w !! "undefined" = None →
  onConnection socket w = (Throw (Error "KaraokeRoom requires id"), w).
Proof.
  intros Hroom Hnone. apply onConnection_no_room_id; [by right|].
  rewrite Hroom. exact Hnone.
Qed.

Lemma joins_no_empty_id (sockets : list Socket) (w : World) :
  karaokeRooms w !! "" = None → karaokeRooms (joins sockets w) !! "" = None.
Proof.
  intros Hnone. induction sockets as [|socket sockets IH] using rev_ind; [done|].
  rewrite joins_snoc.
  destruct (decide (room_key (handshake_query_room socket) = "")) as [Heq|Hne].
  - destruct (handshake_query_room socket) as [r|] eqn:Hr; simpl in Heq; [|discriminate].
    subst r. by rewrite onConnection_empty_room_id.
  - rewrite <- IH. apply (onConnection_other_rooms socket _ ""). congruence.
Qed.

Lemma introductions_single (socket : Socket) (sockets : list Socket) :
  Forall to_single_socket (introductions socket sockets).
Proof.
  induction sockets as [|socket2 sockets IH]; [constructor|].
  rewrite introductions_cons. repeat constructor; [by eexists ..|done].
Qed.

Lemma adapter_add_member (sid : SessionId) (r : RoomId) (rooms : gmap RoomId (list SessionId)) :
  ∃ members, adapter_add sid r rooms !! r = Some members ∧ sid ∈ members ∧
             (∀ id, id ∈ default [] (rooms !! r) → id ∈ members).
Proof.
  unfold adapter_add. rewrite lookup_insert_eq. eexists. split; [done|].
  case_decide; [done|]. split.
  - apply elem_of_app. right. apply list_elem_of_here.
  - intros id Hid. apply elem_of_app. by left.
Qed.

(** The socket is in the room it was let into. *)
Lemma onConnection_enters (socket : Socket) (w : World) :
  registry_consistent w →
  finds_a_room w (handshake_query_room socket) →
  let key := room_key (handshake_query_room socket) in
  let room0 := room_for w (handshake_query_room socket) in
  ∃ room', karaokeRooms (onConnection socket w).2 !! key = Some (a_room room') ∧
           JsObject.get (socket_id socket) (users room') = Some socket ∧
           (∀ id, id ∈ user_ids room0 → id ∈ user_ids room') ∧
           songQueue room' = songQueue room0 ∧
           nowPlaying room' = nowPlaying room0 ∧
           playerStatus room' = playerStatus room0.
Proof.
  intros Hreg Hfinds key room0.
  destruct (onConnection_accepts socket w Hreg Hfinds) as [_ ->].
  cbn [snd karaokeRooms]. fold key. fold room0.
  eexists. rewrite lookup_insert_eq. split; [done|].
  rewrite addUser_eq. cbn [snd this users set_users set_awaitingClients songQueue
                           nowPlaying playerStatus]. unfold user_ids.
  rewrite get_set. repeat split; try done. intros id. apply keys_set.
Qed.

(** X12: a connection without a room.  A handshake with an empty room id is
    turned away before anything happens, on every server that started
    without an entry under the empty id, however many connections it has
    seen: the constructor's error comes out, and registry, adapter and wire
    are as they were.  A handshake with no room id at all is looked up under
    the key "undefined": it is turned away in the same way as long as
    nothing is registered under that key, and let into that room once a
    socket has connected with the room id "undefined". *)
Theorem connection_without_room (socket : Socket) (sockets : list Socket) (w : World) :
  registry_consistent w →
  karaokeRooms w !! "" = None →
  let w' := joins sockets w in
  (handshake_query_room socket = Some "" →
     onConnection socket w' = (Throw (Error "KaraokeRoom requires id"), w')) ∧
  (handshake_query_room socket = None →
     match karaokeRooms w' !! "undefined" with
     | None => onConnection socket w' = (Throw (Error "KaraokeRoom requires id"), w')
     | Some _ =>
         (onConnection socket w').1 = Normal tt ∧
         ∃ room, karaokeRooms (onConnection socket w').2 !! "undefined" = Some (a_room room) ∧
                 JsObject.get (socket_id socket) (users room) = Some socket
     end) ∧
  (∀ first, handshake_query_room first = Some "undefined" →
     is_Some (karaokeRooms (onConnection first w').2 !! "undefined")).
Proof.
  intros Hreg Hnone w'.
  assert (Hreg' : registry_consistent w') by by apply joins_registry_consistent.
  split; [|split].
  - intros Hroom. apply onConnection_empty_room_id; [done|]. by apply joins_no_empty_id.
  - intros Hroom.
    destruct (karaokeRooms w' !! "undefined") as [entry|] eqn:Hlook;
      [|by apply onConnection_missing_room_id].
    assert (Hfinds : finds_a_room w' (handshake_query_room socket)).
    { left. rewrite Hroom. cbn [room_key default].
      destruct entry as [room|name]; [by eauto|].
      destruct (Hreg' _ _ Hlook) as [_ Hin]. exfalso. revert Hin.
      by apply ordinary_name. }
    destruct (onConnection_accepts socket w' Hreg' Hfinds) as [_ Heq].
    split; [by rewrite Heq|].
    destruct (onConnection_enters socket w' Hreg' Hfinds) as (room' & Hroom' & Hget & _).
    rewrite Hroom in Hroom'. cbn [room_key default] in Hroom'. eauto.
  - intros first Hroom.
    assert (Hfinds : finds_a_room w' (handshake_query_room first)).
    { right. exists "undefined". split; [done|]. split; [done|].
      by apply ordinary_name. }
    destruct (onConnection_enters first w' Hreg' Hfinds) as (room' & Hroom' & _).
    rewrite Hroom in Hroom'. cbn [room_key default] in Hroom'. eauto.
Qed.

Lemma quiet_server_consistent : registry_consistent quiet_server.
Proof. intros id entry. cbn. by rewrite lookup_empty. Qed.

(** Erin, whose handshake gives an empty room id, and Dave, whose handshake
    names no room, are turned away after Alice and Bob have joined the
    lobby; Dave is let in after Gina has asked for the room "undefined". *)
Lemma connection_without_room_witness :
  registry_consistent quiet_server ∧
  onConnection erin (joins [alice; bob] quiet_server)
    = (Throw (Error "KaraokeRoom requires id"), joins [alice; bob] quiet_server) ∧
  onConnection dave (joins [alice; bob] quiet_server)
    = (Throw (Error "KaraokeRoom requires id"), joins [alice; bob] quiet_server) ∧
  (onConnection dave (joins [gina] quiet_server)).1 = Normal tt.
Proof.
  assert (Hreg : registry_consistent quiet_server) by apply quiet_server_consistent.
  assert (Hnone : karaokeRooms quiet_server !! "" = None) by apply lookup_empty.
  split; [exact Hreg|]. split; [|split].
  - pose proof (connection_without_room erin [alice; bob] quiet_server Hreg Hnone) as H.
    destruct H as (H & _). exact (H eq_refl).
  - pose proof (connection_without_room dave [alice; bob] quiet_server Hreg Hnone) as H.
    destruct H as (_ & H & _). specialize (H eq_refl).
    assert (Hl : karaokeRooms (joins [alice; bob] quiet_server) !! "undefined" = None)
      by (vm_compute; reflexivity).
    rewrite Hl in H. exact H.
  - pose proof (connection_without_room dave [gina] quiet_server Hreg Hnone) as H.
    destruct H as (_ & H & _). specialize (H eq_refl).
    assert (Hl : ∃ entry, karaokeRooms (joins [gina] quiet_server) !! "undefined" = Some entry)
      by (vm_compute; by eexists).
    destruct Hl as [entry Hl]. rewrite Hl in H. destruct H as [H _]. exact H.
Defined.

(** X13: who is let in, and what that leaves behind.  On a server whose
    rooms are registered under their own ids, a connection comes through
    exactly when a room is registered under the key of its room id, or the
    room id is given, not empty and does not spell a property of
    [Object.prototype].  Then the socket is entered in the adapter room and
    in [users] of the registered room, after the members already there; an
    existing room keeps its queue, song and status; the first frame is the
    newcomer's snapshot, every frame goes to a single socket, and
    [io.sockets.connected] is not touched.  A connection that does not come
    through throws, sends nothing and leaves the server as it was.  Either
    way the rooms stay registered under their own ids. *)
Theorem connection_registers_socket (socket : Socket) (w : World) :
  registry_consistent w →
  let roomId := handshake_query_room socket in
  let key := room_key roomId in
  let room0 := room_for w roomId in
  let w' := (onConnection socket w).2 in
  ((onConnection socket w).1 = Normal tt ↔ finds_a_room w roomId) ∧
  registry_consistent w' ∧
  (finds_a_room w roomId →
     (∃ room', karaokeRooms w' !! key = Some (a_room room') ∧
               JsObject.get (socket_id socket) (users room') = Some socket ∧
               (∀ id, id ∈ user_ids room0 → id ∈ user_ids room') ∧
               songQueue room' = songQueue room0 ∧
               nowPlaying room' = nowPlaying room0 ∧
               playerStatus room' = playerStatus room0) ∧
     (∃ members, adapter_rooms (server w') !! key = Some members ∧
                 socket_id socket ∈ members ∧
                 ∀ id, id ∈ default [] (adapter_rooms (server w) !! key) → id ∈ members) ∧
     connected (server w') = connected (server w) ∧
     head (sent w w')
       = Some (to_socket socket,
               room_data (mkRoomData (nowPlaying room0) (singerId <$> nowPlaying room0)
                                     (head (songQueue room0)) (videoPosition room0))) ∧
     Forall to_single_socket (sent w w')) ∧
  (¬ finds_a_room w roomId →
     is_thrown (onConnection socket w).1 = true ∧ server w' = server w ∧ sent w w' = []).
Proof.
  intros Hreg roomId key room0 w'. subst w'.
  split; [|split; [by apply onConnection_registry_consistent|split]].
  - split.
    + intros Hc. destruct (finds_a_room_or_not w roomId) as [Hf|Hno]; [done|].
      destruct (onConnection_turned_away socket w Hno) as (Ht & _).
      rewrite Hc in Ht. discriminate.
    + intros Hf. by destruct (onConnection_accepts socket w Hreg Hf) as [_ ->].
  - intros Hf. split; [by apply onConnection_enters|].
    destruct (onConnection_accepts socket w Hreg Hf) as [_ ->].
    fold roomId. fold key. fold room0.
    cbn [fst snd karaokeRooms server connected adapter_rooms].
    split; [apply adapter_add_member|]. split; [done|].
    unfold sent. cbn [wire server]. rewrite drop_app_length. split; [done|].
    constructor; [by eexists | apply introductions_single].
  - intros Hno. destruct (onConnection_turned_away socket w Hno) as (Ht & _ & Hs).
    split; [exact Ht|]. split; [exact Hs|]. unfold sent. rewrite Hs. apply drop_all.
Qed.

Lemma alice_in_lobby_consistent : registry_consistent alice_in_lobby.
Proof. apply onConnection_registry_consistent, quiet_server_consistent. Qed.

Lemma connection_registers_socket_witness :
  registry_consistent alice_in_lobby ∧
  (onConnection bob alice_in_lobby).1 = Normal tt.
Proof.
  assert (Hreg : registry_consistent alice_in_lobby) by apply alice_in_lobby_consistent.
  split; [exact Hreg|].
  pose proof (connection_registers_socket bob alice_in_lobby Hreg) as H.
  destruct H as [[_ H] _]. apply H. left.
  assert (Hl : ∃ room, karaokeRooms alice_in_lobby !! "lobby" = Some (a_room room))
    by (vm_compute; by eexists).
  exact Hl.
Defined.

(** ** The mesh *)

Lemma pick_sockets (object : gmap SessionId Socket) (sockets : list Socket) :
  (∀ socket, socket ∈ sockets → object !! socket_id socket = Some socket) →
  pick object (socket_id <$> sockets) = sockets.
Proof.
  unfold pick. induction sockets as [|socket sockets IH]; intros Hall; [done|].
  cbn. rewrite (Hall socket) by apply list_elem_of_here. cbn. f_equal.
  apply IH. intros s Hs. apply Hall. by apply elem_of_cons; right.
Qed.

(** The server after the listed sockets have joined one room in turn. *)
Lemma joins_one_room (sockets : list Socket) (w : World) (room : RoomId) :
  room ≠ "" →
  room ∉ Object_prototype_names →
  registry_consistent w →
  adapter_rooms (server w) !! room = None →
  NoDup (socket_id <$> sockets) →
  (∀ socket, socket ∈ sockets →
     handshake_query_room socket = Some room ∧
     connected (server w) !! socket_id socket = Some socket) →
  registry_consistent (joins sockets w) ∧
  connected (server (joins sockets w)) = connected (server w) ∧
  default [] (adapter_rooms (server (joins sockets w)) !! room) = socket_id <$> sockets ∧
  ∃ frames,
    wire (server (joins sockets w)) = wire (server w) ++ frames ∧
    count_frames is_peer frames = length sockets * (length sockets - 1) ∧
    ∀ i j si sj, i < j → sockets !! i = Some si → sockets !! j = Some sj →
      (to_socket si, peer (socket_id sj) true) ∈ frames ∧
      (to_socket sj, peer (socket_id si) false) ∈ frames.
Proof.
  intros Hroom Hname Hreg Hfresh.
  induction sockets as [|socket sockets IH] using rev_ind; intros Hnd Hall.
  - cbn. rewrite Hfresh. repeat split; try done. exists []. rewrite app_nil_r.
    repeat split; try done; intros i j si sj _ Hi; by rewrite lookup_nil in Hi.
  - rewrite fmap_app in Hnd. apply NoDup_app in Hnd as (Hnd & Hnew & _).
    destruct IH as (Hreg' & Hconn & Hmembers & frames & Hwire & Hcount & Hpairs);
      [done | by (intros s Hs; apply Hall, elem_of_app; left) |].
    destruct (Hall socket) as [Hq Hlive]; [apply elem_of_app; right; apply list_elem_of_here|].
    assert (Hout : socket_id socket ∉ socket_id <$> sockets).
    { intros Hin. apply (Hnew _ Hin). apply list_elem_of_here. }
    rewrite joins_snoc.
    assert (Hfinds : finds_a_room (joins sockets w) (handshake_query_room socket)).
    { right. exists room. by rewrite Hq. }
    destruct (onConnection_accepts socket (joins sockets w) Hreg' Hfinds) as [_ Heq].
    split; [by apply onConnection_registry_consistent|].
    rewrite Heq. cbn [snd server connected adapter_rooms wire].
    assert (Hkey : room_key (handshake_query_room socket) = room) by by rewrite Hq.
    assert (Hothers : other_members socket (server (joins sockets w)) = socket_id <$> sockets).
    { unfold other_members. rewrite Hkey, Hmembers. by apply filter_absent. }
    rewrite Hothers, Hconn, Hkey.
    rewrite pick_sockets by (intros s Hs; apply Hall, elem_of_app; by left).
    split; [done|split].
    + unfold adapter_add. rewrite lookup_insert_eq. cbn [default].
      rewrite Hmembers, decide_False by done. by rewrite fmap_app.
    + eexists (frames ++ _ :: introductions socket sockets).
      rewrite Hwire, <- app_assoc. split; [reflexivity|]. split.
      * rewrite count_frames_app, Hcount. unfold count_frames.
        rewrite filter_cons_False by (cbn; congruence).
        rewrite introductions_peers, introductions_length, length_app. cbn [length].
        destruct (length sockets) as [|n]; [done|]. rewrite !Nat.sub_succ, !Nat.sub_0_r.
        replace (S n + 1 - 1) with (S n) by lia. nia.
      * intros i j si sj Hij Hi Hj.
        destruct (decide (j < length sockets)) as [Hlt|Hge].
        -- rewrite lookup_app_l in Hi, Hj by lia.
           destruct (Hpairs i j si sj Hij Hi Hj) as [H1 H2].
           split; apply elem_of_app; by left.
        -- assert (j = length sockets) as ->.
           { apply lookup_lt_Some in Hj. rewrite length_app in Hj. cbn in Hj. lia. }
           rewrite lookup_app_l in Hi by lia.
           rewrite list_lookup_middle in Hj by done. injection Hj as <-.
           assert (Hin : si ∈ sockets) by (by eapply list_elem_of_lookup_2).
           destruct (introductions_elem socket si sockets Hin) as [H1 H2].
           split; apply elem_of_app; right; apply elem_of_cons; by right.
Qed.

(** X14: a full mesh.  When [n] connected sockets with distinct ids join
    the same, not yet populated room in turn, under a room id that is not
    empty and does not spell a property of [Object.prototype], the adapter
    room lists them in order of arrival and the server has sent
    [n * (n - 1)] "peer" frames: for every two of them, the earlier one was
    told of the later one with [initiator: true] and the later one of the
    earlier one with [initiator: false]. *)
Theorem joins_build_full_mesh (sockets : list Socket) (w : World) (room : RoomId) :
  room ≠ "" →
  room ∉ Object_prototype_names →
  registry_consistent w →
  adapter_rooms (server w) !! room = None →
  NoDup (socket_id <$> sockets) →
  (∀ socket, socket ∈ sockets →
     handshake_query_room socket = Some room ∧
     connected (server w) !! socket_id socket = Some socket) →
  let frames := sent w (joins sockets w) in
  default [] (adapter_rooms (server (joins sockets w)) !! room) = socket_id <$> sockets ∧
  count_frames is_peer frames = length sockets * (length sockets - 1) ∧
  ∀ i j si sj, i < j → sockets !! i = Some si → sockets !! j = Some sj →
    (to_socket si, peer (socket_id sj) true) ∈ frames ∧
    (to_socket sj, peer (socket_id si) false) ∈ frames.
Proof.
  intros Hroom Hname Hreg Hfresh Hnd Hall frames. subst frames.
  destruct (joins_one_room sockets w room Hroom Hname Hreg Hfresh Hnd Hall)
    as (_ & _ & Hmembers & frames & Hwire & Hcount & Hpairs).
  unfold sent. rewrite Hwire, drop_app_length.
  split; [exact Hmembers|]. split; [exact Hcount | exact Hpairs].
Qed.

Lemma joins_build_full_mesh_witness :
  NoDup (socket_id <$> [alice; bob]) ∧
  count_frames is_peer (sent quiet_server (joins [alice; bob] quiet_server))
    = length [alice; bob] * (length [alice; bob] - 1).
Proof.
  assert (Hnd : NoDup (socket_id <$> [alice; bob])).
  { constructor; [intros ?%list_elem_of_singleton; discriminate|].
    constructor; [apply not_elem_of_nil | constructor]. }
  assert (Hroom : "lobby" ≠ "") by discriminate.
  assert (Hname : "lobby" ∉ Object_prototype_names) by (by apply ordinary_name).
  assert (Hreg : registry_consistent quiet_server) by apply quiet_server_consistent.
  assert (Hfresh : adapter_rooms (server quiet_server) !! "lobby" = None)
    by apply lookup_empty.
  assert (Hall : ∀ socket, socket ∈ [alice; bob] →
            handshake_query_room socket = Some "lobby" ∧
            connected (server quiet_server) !! socket_id socket = Some socket).
  { intros socket Hin.
    repeat (apply elem_of_cons in Hin as [->|Hin]);
      [split; vm_compute; reflexivity .. |].
    by apply elem_of_nil in Hin. }
  split; [exact Hnd|].
  pose proof (joins_build_full_mesh [alice; bob] quiet_server "lobby"
                Hroom Hname Hreg Hfresh Hnd Hall) as H.
  destruct H as (_ & H & _). exact H.
Defined.

(** * The browser side *)

(** X15: the "room-data" listener does not survive a snapshot of the room.
    [roomData()] builds an object with the keys [currentSong],
    [currentSinger], [upNext] and [position]; the listener reads
    [data.nowPlaying.videoData], finds [data.nowPlaying] undefined and
    throws before [setState] is reached, whatever the room sent: the
    component's state is as it was.  The shape it would accept carries the
    song under [nowPlaying]; then the video data and the singer are
    stored. *)
Theorem room_data_listener_throws (d : RoomData) (singer : SessionId) (v : VideoData)
    (p : Parent) :
  client_on_room_data (roomData_value d) p
    = (Throw (TypeError "Cannot read property 'videoData' of undefined"), p) ∧
  client_on_room_data (js_object [("nowPlaying", song_value (mkSong singer (Some v)))]) p
    = (Normal tt,
       mkParent (parent_socket p) (videoData_value v)
                (js_string singer) (state_notification p)
                (state_songInputNotification p) (state_peers p) (peer_objects p)).
Proof. split; reflexivity. Qed.

(** ** Timed notices *)

(** X16: the timer of a room notification clears the notice only while it
    still shows the text the timer was set for.  When a second notification
    arrives before the first timer fires, a different text stays up until
    its own timer; the same text is taken down by the first timer already. *)
Theorem notification_timer_compares_text (m1 m2 : string) (p : Parent) :
  let shown := client_on_notification m2 (client_on_notification m1 p) in
  state_notification shown = Some m2 ∧
  state_notification (notification_timeout m1 shown)
    = (if decide (m1 = m2) then None else Some m2) ∧
  state_notification (notification_timeout m2 (notification_timeout m1 shown)) = None.
Proof.
  cbn zeta. unfold notification_timeout. cbn [client_on_notification state_notification].
  split; [done|].
  destruct (decide (m1 = m2)) as [->|Hne].
  - rewrite decide_True by done. cbn. split; [done|]. by rewrite decide_False by done.
  - rewrite decide_False by congruence. split; [done|]. by rewrite decide_True by done.
Qed.

(** X17: the timer of a submission confirmation clears whatever is shown.
    When a second confirmation arrives before the first timer fires, the
    first timer takes the second confirmation down, whatever it says; the
    room notification next to it is not touched. *)
Theorem confirmation_timer_clears_any_text (m1 m2 : string) (p : Parent) :
  let shown := client_on_song_added_success m2 (client_on_song_added_success m1 p) in
  state_songInputNotification shown = Some m2 ∧
  state_songInputNotification (song_added_timeout shown) = None ∧
  state_notification (song_added_timeout shown) = state_notification p.
Proof. by repeat split. Qed.

(** ** Signals between browsers *)

(** X18: a signal finds its way.  A peer object of A made for B produces a
    payload; A's socket emits it addressed to B; the server, with B
    connected, sends B one frame that names A as the peer; B's component
    hands the payload to its live peer objects made for A that
    [state.peers] still lists, and to no other peer object. *)
Theorem signal_reaches_the_peer_for_its_sender (s : Io) (a b : Socket) (out : LocalPeer)
    (payload : string) (p : Parent) :
  remote out = socket_id b →
  connected s !! socket_id b = Some b →
  parent_socket p = b →
  let s' := (on_signal a (Some (peer_on_signal out payload)) s).2 in
  let frames := drop (length (wire s)) (wire s') in
  frames = [(to_socket b, signal payload (socket_id a))] ∧
  ∃ p', client_receive_all frames p = Some p' ∧
        state_peers p' = state_peers p ∧
        length (peer_objects p') = length (peer_objects p) ∧
        ∀ i peer, peer_objects p !! i = Some peer →
          peer_objects p' !! i
            = Some (if bool_decide (remote peer = socket_id a)
                       && bool_decide (is_Some (JsObject.get (remote peer) (state_peers p)))
                       && negb (destroyed peer)
                    then mkLocalPeer (remote peer) (initiator_option peer) false
                                     (signalled peer ++ [payload])
                    else peer).
Proof.
  intros Hout Hlive Hown s' frames. subst frames s'.
  unfold on_signal, peer_on_signal, read_property. cbn [data_peerId data_signal].
  rewrite Hout, Hlive. cbn [snd io_emit wire]. rewrite drop_app_length.
  split; [done|].
  unfold client_receive_all. cbn [foldl mbind option_bind client_receive].
  rewrite decide_True by done.
  eexists. split; [reflexivity|]. cbn [client_on_signal state_peers peer_objects].
  split; [done|]. split; [by rewrite length_fmap|].
  intros i peer Hi. rewrite list_lookup_fmap, Hi. cbn [fmap option_fmap option_map].
  f_equal. unfold peer_on_socket_signal.
  destruct (decide (remote peer = socket_id a)) as [Heq|Hne].
  - rewrite (bool_decide_eq_true_2 (socket_id a = remote peer)) by congruence.
    rewrite (bool_decide_eq_true_2 (remote peer = socket_id a)) by done. cbn [andb].
    destruct (bool_decide (is_Some _)); [|done]. cbn [andb]. by destruct (destroyed peer).
  - rewrite (bool_decide_eq_false_2 (socket_id a = remote peer)) by congruence.
    by rewrite (bool_decide_eq_false_2 (remote peer = socket_id a)) by done.
Qed.

Lemma signal_reaches_the_peer_for_its_sender_witness :
  connected (server alice_in_lobby) !! socket_id bob = Some bob ∧
  ∃ p', client_receive_all
          (drop (length (wire (server alice_in_lobby)))
                (wire (on_signal alice
                         (Some (peer_on_signal (mkLocalPeer "bob" true false []) "offer"))
                         (server alice_in_lobby)).2))
          (mkParent bob js_null js_null None None [("alice", 0)]
                    [mkLocalPeer "alice" false false []]) = Some p'
        ∧ peer_objects p' !! 0 = Some (mkLocalPeer "alice" false false ["offer"]).
Proof.
  assert (Hlive : connected (server alice_in_lobby) !! socket_id bob = Some bob)
    by (vm_compute; reflexivity).
  split; [exact Hlive|].
  pose proof (signal_reaches_the_peer_for_its_sender (server alice_in_lobby) alice bob
                (mkLocalPeer "bob" true false []) "offer"
                (mkParent bob js_null js_null None None [("alice", 0)]
                          [mkLocalPeer "alice" false false []])
                eq_refl Hlive eq_refl) as H.
  destruct H as (_ & p' & Hrecv & _ & _ & Hobj).
  exists p'. split; [exact Hrecv|].
  rewrite (Hobj 0 (mkLocalPeer "alice" false false []) eq_refl).
  vm_compute. reflexivity.
Defined.

(** ** The mesh as the browsers see it *)

Lemma room_data_listener_snapshot (d : RoomData) (p : Parent) :
  (client_on_room_data (roomData_value d) p).2 = p.
Proof. reflexivity. Qed.

Lemma client_receive_all_cons (e : Emit) (frames : list Emit) (p : Parent) :
  client_receive_all (e :: frames) p
    = match client_receive e p with
      | Some p1 => client_receive_all frames p1
      | None => None
      end.
Proof.
  unfold client_receive_all. cbn [foldl mbind option_bind].
  destruct (client_receive e p) as [p1|]; [done|].
  induction frames as [|e' frames IH]; [done | exact IH].
Qed.

Lemma client_receive_other (socket : Socket) (event : Event) (p : Parent) :
  socket ≠ parent_socket p → client_receive (to_socket socket, event) p = Some p.
Proof. intros Hne. unfold client_receive. by rewrite decide_False. Qed.

Ltac skip_frame :=
  rewrite client_receive_all_cons, client_receive_other by congruence; cbv beta iota.

Ltac take_frame :=
  rewrite client_receive_all_cons; unfold client_receive at 1;
  rewrite decide_True by done; cbv beta iota.

Lemma introductions_not_for (socket member : Socket) (others : list Socket) (p : Parent) :
  parent_socket p = member → member ≠ socket → member ∉ others →
  client_receive_all (introductions socket others) p = Some p.
Proof.
  intros Hown Hne. induction others as [|other others IH]; intros Hout; [done|].
  apply not_elem_of_cons in Hout as [Hother Hout].
  rewrite introductions_cons. do 2 skip_frame. by apply IH.
Qed.

Lemma introductions_for_newcomer (socket : Socket) (others : list Socket) (p : Parent) :
  parent_socket p = socket → socket ∉ others →
  ∃ p', client_receive_all (introductions socket others) p = Some p' ∧
        peer_objects p'
          = peer_objects p ++ ((λ s, mkLocalPeer (socket_id s) false false []) <$> others).
Proof.
  revert p. induction others as [|other others IH]; intros p Hown Hout.
  - exists p. by rewrite app_nil_r.
  - apply not_elem_of_cons in Hout as [Hother Hout].
    rewrite introductions_cons. skip_frame. take_frame.
    destruct (IH (client_on_peer (socket_id other) false p) Hown Hout) as (p' & Hrecv & Hobj).
    exists p'. split; [exact Hrecv|]. rewrite Hobj. cbn [client_on_peer peer_objects].
    by rewrite <- app_assoc.
Qed.

Lemma introductions_for_member (socket member : Socket) (others : list Socket) (p : Parent) :
  parent_socket p = member → member ≠ socket → NoDup others → member ∈ others →
  client_receive_all (introductions socket others) p
    = Some (client_on_peer (socket_id socket) true p).
Proof.
  intros Hown Hne. induction others as [|other others IH]; intros Hnd Hin.
  - by apply elem_of_nil in Hin.
  - apply NoDup_cons in Hnd as [Hfresh Hnd].
    rewrite introductions_cons.
    destruct (decide (other = member)) as [->|Hother].
    + take_frame.
      rewrite client_receive_all_cons, client_receive_other by (cbn; congruence).
      cbv beta iota. by apply (introductions_not_for socket member).
    + do 2 skip_frame.
      apply IH; [done|]. apply elem_of_cons in Hin as [->|Hin]; [done | exact Hin].
Qed.

(** X19: one initiator for every pair.  The frames of a connection that
    comes through, received by the components behind the sockets they are
    sent to: the newcomer's snapshot listener throws and changes nothing,
    then the newcomer makes one peer object per member already in the room,
    none of them initiating, in the order of the room; each of those
    members makes exactly one peer object for the newcomer, an initiating
    one, and lists it in [state.peers]. *)
Theorem join_makes_one_initiator_per_pair (socket : Socket) (w : World) :
  (onConnection socket w).1 = Normal tt →
  let others := pick (connected (server w)) (other_members socket (server w)) in
  NoDup others →
  socket ∉ others →
  let frames := sent w (onConnection socket w).2 in
  (∀ p, parent_socket p = socket →
     ∃ p', client_receive_all frames p = Some p' ∧
           peer_objects p'
             = peer_objects p ++ ((λ s, mkLocalPeer (socket_id s) false false []) <$> others)) ∧
  (∀ member p, member ∈ others → parent_socket p = member →
     ∃ p', client_receive_all frames p = Some p' ∧
           peer_objects p' = peer_objects p ++ [mkLocalPeer (socket_id socket) true false []] ∧
           JsObject.get (socket_id socket) (state_peers p') = Some (length (peer_objects p))).
Proof.
  intros Hok others Hnd Hout frames. subst frames.
  destruct (onConnection_frames socket w Hok) as [d Hw]. fold others in Hw.
  unfold sent. rewrite Hw, drop_app_length. split.
  - intros p Hown. take_frame.
    rewrite (room_data_listener_snapshot d p).
    by apply introductions_for_newcomer.
  - intros member p Hin Hown.
    assert (Hne : member ≠ socket) by (intros ->; by apply Hout).
    skip_frame.
    rewrite (introductions_for_member socket member others p Hown Hne Hnd Hin).
    eexists. split; [reflexivity|]. cbn [client_on_peer peer_objects state_peers].
    split; [done | apply get_set].
Qed.

Lemma join_makes_one_initiator_per_pair_witness :
  (onConnection bob alice_in_lobby).1 = Normal tt ∧
  ∃ p', client_receive_all (sent alice_in_lobby (onConnection bob alice_in_lobby).2)
          (mkParent alice js_null js_null None None [] []) = Some p'
        ∧ peer_objects p'
          = peer_objects (mkParent alice js_null js_null None None [] [])
            ++ [mkLocalPeer (socket_id bob) true false []].
Proof.
  assert (Hok : (onConnection bob alice_in_lobby).1 = Normal tt)
    by (vm_compute; reflexivity).
  assert (Ho : pick (connected (server alice_in_lobby))
                    (other_members bob (server alice_in_lobby)) = [alice])
    by (vm_compute; reflexivity).
  assert (Hnd : NoDup (pick (connected (server alice_in_lobby))
                            (other_members bob (server alice_in_lobby)))).
  { rewrite Ho. constructor; [apply not_elem_of_nil | constructor]. }
  assert (Hout : bob ∉ pick (connected (server alice_in_lobby))
                            (other_members bob (server alice_in_lobby))).
  { rewrite Ho. intros ?%list_elem_of_singleton. discriminate. }
  assert (Hin : alice ∈ pick (connected (server alice_in_lobby))
                             (other_members bob (server alice_in_lobby))).
  { rewrite Ho. apply list_elem_of_here. }
  split; [exact Hok|].
  pose proof (join_makes_one_initiator_per_pair bob alice_in_lobby Hok Hnd Hout) as H.
  destruct H as [_ H].
  destruct (H alice (mkParent alice js_null js_null None None [] []) Hin eq_refl)
    as (p' & Hrecv & Hobj & _).
  exists p'. split; [exact Hrecv | exact Hobj].
Defined.

(** ** Room ids that spell a built-in *)

Lemma onConnection_builtin_names (socket : Socket) (w : World) :
  builtin_names_hold_no_room w → builtin_names_hold_no_room (onConnection socket w).2.
Proof.
  intros Hinv name Hname.
  destruct (decide (name = room_key (handshake_query_room socket))) as [->|Hne];
    [|rewrite onConnection_other_rooms by done; by apply Hinv].
  destruct (initializeRoom_cases (handshake_query_room socket) w) as (_ & _ & Hcase).
  unfold onConnection. cbn zeta.
  destruct (Hinv _ Hname) as [Hnone|[Hproto Hbuiltin]].
  - rewrite Hnone, decide_True in Hcase by done. rewrite Hcase.
    destruct (decide (room_key (handshake_query_room socket) = "__proto__")) as [Hp|Hp];
      cbn [snd karaokeRooms]; [by left|].
    right. by rewrite lookup_insert_eq.
  - rewrite Hbuiltin in Hcase. rewrite Hcase. cbn [snd]. by right.
Qed.

Lemma joins_builtin_names (sockets : list Socket) (w : World) :
  builtin_names_hold_no_room w → builtin_names_hold_no_room (joins sockets w).
Proof.
  intros Hinv. induction sockets as [|socket sockets IH] using rev_ind; [done|].
  rewrite joins_snoc. by apply onConnection_builtin_names.
Qed.

(** X20: a room id that spells a property of [Object.prototype] never gets
    a room.  On a server that started with an empty registry, whatever
    connections it has seen, a connection with such a room id finds the
    built-in of that name where a room is expected and throws at the call of
    [addUser]: nothing is sent, the adapter is not touched, and the registry
    now holds the built-in under that name (nothing under "__proto__");
    entries under other keys stay. *)
Theorem connection_under_builtin_name_is_refused (socket : Socket) (sockets : list Socket)
    (s : Io) (name : RoomId) :
  handshake_query_room socket = Some name →
  name ∈ Object_prototype_names →
  let w := joins sockets (mkWorld ∅ s) in
  let w' := (onConnection socket w).2 in
  (onConnection socket w).1 = Throw (TypeError "room.addUser is not a function") ∧
  server w' = server w ∧
  sent w w' = [] ∧
  karaokeRooms w' !! name
    = (if decide (name = "__proto__") then None else Some (a_builtin name)) ∧
  (∀ id, id ≠ name → karaokeRooms w' !! id = karaokeRooms w !! id).
Proof.
  intros Hroom Hname w w'. subst w'.
  assert (Hinv : builtin_names_hold_no_room w).
  { apply joins_builtin_names. intros n _. left. apply lookup_empty. }
  assert (Hothers : ∀ id, id ≠ name →
            karaokeRooms (onConnection socket w).2 !! id = karaokeRooms w !! id).
  { intros id Hne. apply onConnection_other_rooms. by rewrite Hroom. }
  destruct (initializeRoom_cases (handshake_query_room socket) w) as (_ & _ & Hcase).
  revert Hothers. unfold onConnection, sent. cbn zeta.
  rewrite Hroom in *. cbn [room_key from_option id] in Hcase.
  destruct (Hinv _ Hname) as [Hnone|[Hproto Hbuiltin]].
  - rewrite Hnone, decide_True in Hcase by done. rewrite Hcase.
    destruct (decide (name = "__proto__")) as [Hp|Hp]; cbn [fst snd karaokeRooms server];
      intros Hothers; rewrite drop_all; repeat split; try done.
    by rewrite lookup_insert_eq.
  - rewrite Hbuiltin in Hcase. rewrite Hcase. cbn [fst snd].
    intros Hothers. rewrite drop_all, decide_False by done. by repeat split.
Qed.

(** Frank asks for the room "constructor" after Alice and Bob have joined
    the lobby. *)
Lemma connection_under_builtin_name_is_refused_witness :
  handshake_query_room frank = Some "constructor" ∧
  onConnection frank (joins [alice; bob] quiet_server)
    = (Throw (TypeError "room.addUser is not a function"),
       (onConnection frank (joins [alice; bob] quiet_server)).2) ∧
  sent (joins [alice; bob] quiet_server)
       (onConnection frank (joins [alice; bob] quiet_server)).2 = [].
Proof.
  assert (Hroom : handshake_query_room frank = Some "constructor") by reflexivity.
  assert (Hname : "constructor" ∈ Object_prototype_names) by apply list_elem_of_here.
  split; [exact Hroom|].
  pose proof (connection_under_builtin_name_is_refused frank [alice; bob]
                (server quiet_server) "constructor" Hroom Hname) as H.
  cbn zeta in H. change (mkWorld ∅ (server quiet_server)) with quiet_server in H.
  destruct H as (Hc & _ & Hs & _). split; [|exact Hs].
  rewrite <- Hc. by destruct (onConnection frank (joins [alice; bob] quiet_server)).
Defined.

(** ** Songs without video data *)




